(** * RetryStorm: a static analyzer of microservice retry/timeout topologies

    A shallow embedding of [retrystorm.py] and the properties of its three
    detectors, of [parse_duration], [load_topology], [analyze] and [to_sarif],
    and of the exit status of [cli.py].

    Modelling choices, following the Python source:
    - [int] is [Z] (unbounded), [float] is the kernel's binary64 [float],
      a [str] used as a name or a message is [string], a [str] whose
      characters the code inspects is the list of its code points
      ([Py.text]), a [list] of names is [list string];
    - the [services] dict keeps insertion order, which fixes the order of the
      findings, so it is an association list read from the front
      ([dict_wf] says its keys are distinct, as those of a dict are);
    - the detectors append to a list [findings] and read the caller's
      [services]: both live in a [Heap] threaded by a small state monad;
    - [walk] recurses without a syntactic bound: it takes fuel, and running
      out of fuel is the only way a computation of the monad has no result;
    - the document [load_topology] reads is a value of [Yaml] (null, booleans,
      numbers, strings, lists and dicts with string keys), an exception is
      [None], and what it builds keeps the values the document gave
      ([LoadedConfig]); [as_topology] tells when that is a [Topology]. *)

From Stdlib Require Import ZArith List String Ascii Bool Lia PeanoNat.
From Stdlib Require Import Floats DecimalString.
Import ListNotations.

Local Open Scope string_scope.
Local Open Scope list_scope.
Local Open Scope Z_scope.

(** ** Python builtins used by the source *)

Module Py.

(** [x in l] for a list of strings. *)
Definition contains (l : list string) (x : string) : bool :=
  existsb (String.eqb x) l.

(** [sep.join(l)]. *)
Fixpoint join (sep : string) (l : list string) : string :=
  match l with
  | [] => EmptyString
  | [x] => x
  | x :: rest => (x ++ sep ++ join sep rest)%string
  end.

(** [str(n)] for an [int]: decimal digits, a leading minus sign when negative. *)
Definition str_of_int (n : Z) : string :=
  NilZero.string_of_int (Z.to_int n).

(** A [str] whose characters the code looks at is the list of its code
    points. *)
Definition text : Type := list N.

(** The [str] an ASCII literal of the source spells. *)
Definition chars (s : string) : text :=
  map N_of_ascii (list_ascii_of_string s).

(** The characters [str.strip()] removes, those for which [str.isspace] holds:
    U+0009 to U+000D, U+001C to U+0020, U+0085, U+00A0, U+1680, U+2000 to
    U+200A, U+2028, U+2029, U+202F, U+205F and U+3000. *)
Definition isspace (c : N) : bool :=
  (((9 <=? c) && (c <=? 13)) || ((28 <=? c) && (c <=? 32))
   || (c =? 133) || (c =? 160) || (c =? 5760)
   || ((8192 <=? c) && (c <=? 8202))
   || (c =? 8232) || (c =? 8233) || (c =? 8239) || (c =? 8287)
   || (c =? 12288))%N.

Fixpoint lstrip (s : text) : text :=
  match s with
  | c :: rest => if isspace c then lstrip rest else s
  | [] => []
  end.

Definition rstrip (s : text) : text := rev (lstrip (rev s)).

(** [s.strip()]. *)
Definition strip (s : text) : text := rstrip (lstrip s).

(** [s.startswith(prefix)]. *)
Fixpoint startswith (s prefix : text) : bool :=
  match prefix, s with
  | [], _ => true
  | c :: prefix', d :: s' => (c =? d)%N && startswith s' prefix'
  | _ :: _, [] => false
  end.

(** [s.endswith(suffix)]. *)
Definition endswith (s suffix : text) : bool :=
  startswith (rev s) (rev suffix).

(** [s[:-n]] for [n > 0]: the string without its last [n] characters, empty
    when it has fewer. *)
Definition drop_last (n : nat) (s : text) : text :=
  firstn (List.length s - n) s.

(** [float(n)] for an [int]: the nearest binary64 number, ties to even;
    [None] stands for the [OverflowError] Python raises when that is not
    finite. *)
Definition float_of_int (n : Z) : option float :=
  let f := SF2Prim (binary_normalize prec emax n 0 false) in
  if is_infinity f then None else Some f.

(** [float(s)] on a non-empty string of the digits 0 to 9: the nearest
    binary64 number to the number they spell, infinity when that is out of
    range. On any other string this reader answers [None]; it stands in for
    [float] only where the argument is such a string of digits. *)
Definition digit_of (c : N) : option Z :=
  if ((48 <=? c) && (c <=? 57))%N then Some (Z.of_N c - 48) else None.

Fixpoint digits_value (s : text) (acc : Z) : option Z :=
  match s with
  | [] => Some acc
  | c :: rest =>
      match digit_of c with
      | Some d => digits_value rest (10 * acc + d)
      | None => None
      end
  end.

Definition float_of_digits (s : text) : option float :=
  match s with
  | [] => None
  | _ => match digits_value s 0 with
         | Some n => Some (SF2Prim (binary_normalize prec emax n 0 false))
         | None => None
         end
  end.

(** [a == b] for two strs. *)
Definition text_eqb (a b : text) : bool :=
  if list_eq_dec N.eq_dec a b then true else false.

(** [int(x)] for a [float]: [x] cut off towards zero; [None] stands for the
    [ValueError] on nan and the [OverflowError] on an infinity. *)
Definition int_of_float (x : float) : option Z :=
  match Prim2SF x with
  | S754_zero _ => Some 0
  | S754_finite s m e =>
      let magnitude := if 0 <=? e then Zpos m * 2 ^ e else Zpos m / 2 ^ (- e) in
      Some (if s then - magnitude else magnitude)
  | S754_infinity _ | S754_nan => None
  end.

End Py.

(** ** Data model *)

Record ServiceConfig := mkServiceConfig {
  name : string;
  timeout_ms : float;
  max_retries : Z;
  has_circuit_breaker : bool;
  calls : list string
}.

Record Finding := mkFinding {
  rule : string;
  severity : string;
  message : string;
  path : list string
}.

(** The [services] dict: key and value pairs in insertion order. *)
Definition Topology := list (string * ServiceConfig).

(** [services.get(k)]: the value of the first pair with key [k]. *)
Fixpoint dict_get (d : Topology) (k : string) : option ServiceConfig :=
  match d with
  | [] => None
  | (k', v) :: rest => if String.eqb k k' then Some v else dict_get rest k
  end.

(** The keys in iteration order, as in [for name in services]. *)
Definition dict_keys (d : Topology) : list string := map fst d.

(** A dict holds each key once. *)
Definition dict_wf (d : Topology) : Prop := NoDup (dict_keys d).

(** ** Duration normalisation *)

(** The argument of [parse_duration]: a number or a string. *)
Inductive PyValue :=
| PyInt (n : Z)
| PyFloat (x : float)
| PyStr (s : Py.text).

Section DurationNormalizer.

(** Python's [float(str)], not part of the repository: [None] stands for the
    [ValueError] it raises on a string that is no number. *)
Variable float_of_str : Py.text -> option float.

Definition parse_duration (s : PyValue) : option float :=
  match s with
  | PyInt n => Py.float_of_int n
  | PyFloat x => Some x
  | PyStr s =>
      let s := Py.strip s in
      if Py.endswith s (Py.chars "ms") then
        float_of_str (Py.drop_last 2 s)
      else if Py.endswith s (Py.chars "s") then
        option_map (fun x => (x * 1000)%float) (float_of_str (Py.drop_last 1 s))
      else if Py.endswith s (Py.chars "m") then
        option_map (fun x => (x * 60000)%float) (float_of_str (Py.drop_last 1 s))
      else float_of_str s
  end.

End DurationNormalizer.

(** ** The heap and its monad *)

(** What a run of the detectors can touch: the caller's [services] dict, the
    list [findings] of the detector that is running, and a ghost log
    [heap_visited] of the paths at which [walk] got past its existence check.
    Nothing reads the log; it only serves to state what the traversal
    explores. *)
Record Heap := mkHeap {
  heap_services : Topology;
  heap_findings : list Finding;
  heap_visited : list (list string)
}.

(** A computation reads and updates the heap; [None] is fuel exhaustion. *)
Definition M (A : Type) : Type := Heap -> option (A * Heap).

Definition ret {A : Type} (x : A) : M A := fun h => Some (x, h).

Definition bind {A B : Type} (c : M A) (k : A -> M B) : M B :=
  fun h => match c h with
           | Some (x, h') => k x h'
           | None => None
           end.

Definition out_of_fuel {A : Type} : M A := fun _ => None.

Declare Scope heap_scope.
Delimit Scope heap_scope with heap.
Notation "x <- c ;; k" := (bind c (fun x => k))
  (at level 61, c at next level, right associativity) : heap_scope.
Notation "c ;; k" := (bind c (fun _ => k))
  (at level 61, right associativity) : heap_scope.
Local Open Scope heap_scope.

(** [services.get(name)]. *)
Definition services_get (k : string) : M (option ServiceConfig) :=
  fun h => Some (dict_get (heap_services h) k, h).

(** [services.items()], as the list a [for] loop runs over. *)
Definition services_items : M (list (string * ServiceConfig)) :=
  fun h => Some (heap_services h, h).

(** The keys of [services], as the list [for name in services] runs over. *)
Definition services_names : M (list string) :=
  fun h => Some (dict_keys (heap_services h), h).

(** [findings = []]. *)
Definition findings_new : M unit :=
  fun h => Some (tt, mkHeap (heap_services h) [] (heap_visited h)).

(** [findings.append(f)]. *)
Definition findings_append (f : Finding) : M unit :=
  fun h => Some (tt, mkHeap (heap_services h) (heap_findings h ++ [f])
                            (heap_visited h)).

(** [return findings]. *)
Definition findings_read : M (list Finding) :=
  fun h => Some (heap_findings h, h).

(** Ghost: log that [walk] visits the node at the end of [p]. *)
Definition ghost_visit (p : list string) : M unit :=
  fun h => Some (tt, mkHeap (heap_services h) (heap_findings h)
                            (heap_visited h ++ [p])).

(** [for x in l: body(x)]. *)
Fixpoint for_each {A : Type} (l : list A) (body : A -> M unit) : M unit :=
  match l with
  | [] => ret tt
  | x :: rest => body x ;; for_each rest body
  end.

(** [if c: body]. *)
Definition when (c : bool) (body : M unit) : M unit :=
  if c then body else ret tt.

(** A call from outside: the function runs on the caller's dict, and the
    caller gets the returned value. *)
Definition new_heap (services : Topology) : Heap := mkHeap services [] [].

Definition call {A : Type} (c : M A) (services : Topology) : option A :=
  option_map fst (c (new_heap services)).

(** ** The detectors *)

Definition default_threshold : Z := 10.

Definition retry_amplification_finding (current : Z) (path : list string)
  : Finding :=
  mkFinding "retry-amplification" "error"
    ("Retry amplification " ++ Py.str_of_int current ++ "x along "
       ++ Py.join " -> " path)%string
    path.

(** The closure [walk] of [detect_retry_amplification]; [threshold] and
    [findings] are the variables it captures. *)
Fixpoint walk (fuel : nat) (threshold : Z)
    (name : string) (path : list string) (product : Z) : M unit :=
  match fuel with
  | O => out_of_fuel
  | S fuel' =>
      svc <- services_get name ;;
      match svc with
      | None => ret tt
      | Some svc =>
          ghost_visit path ;;
          let current := product * max_retries svc in
          when ((1 <? List.length path)%nat && (threshold <? current))
            (findings_append (retry_amplification_finding current path)) ;;
          for_each (calls svc) (fun callee =>
            when (negb (Py.contains path callee))
              (walk fuel' threshold callee (path ++ [callee]) current))
      end
  end.

(** The recursion of [walk] is never deeper than the number of services plus
    one, which is the fuel given here. *)
Definition detect_retry_amplification (threshold : Z) : M (list Finding) :=
  findings_new ;;
  names <- services_names ;;
  for_each names (fun name =>
    walk (S (List.length names)) threshold name [name] 1) ;;
  findings_read.

Definition circuit_breaker_gap_finding (name : string) (svc : ServiceConfig)
  : Finding :=
  let callees := Py.join ", " (calls svc) in
  mkFinding "circuit-breaker-gap" "warning"
    ("'" ++ name ++ "' calls [" ++ callees ++ "] without circuit breaker")%string
    [name].

(** A non-empty list is true. *)
Definition truthy {A : Type} (l : list A) : bool :=
  match l with [] => false | _ :: _ => true end.

Definition detect_circuit_breaker_gaps : M (list Finding) :=
  findings_new ;;
  items <- services_items ;;
  for_each items (fun '(name, svc) =>
    when (truthy (calls svc) && negb (has_circuit_breaker svc))
      (findings_append (circuit_breaker_gap_finding name svc))) ;;
  findings_read.

Section Detectors.

(** How an f-string renders a [float] (Python's shortest round-trip [repr]),
    not part of the repository. *)
Variable float_str : float -> string.

Definition timeout_inversion_finding
    (name : string) (svc : ServiceConfig)
    (callee_name : string) (callee : ServiceConfig) : Finding :=
  mkFinding "timeout-inversion" "warning"
    (name ++ " timeout (" ++ float_str (timeout_ms svc) ++ "ms) < "
       ++ callee_name ++ " (" ++ float_str (timeout_ms callee) ++ "ms)")%string
    [name; callee_name].

Definition detect_timeout_inversion : M (list Finding) :=
  findings_new ;;
  items <- services_items ;;
  for_each items (fun '(name, svc) =>
    for_each (calls svc) (fun callee_name =>
      callee <- services_get callee_name ;;
      match callee with
      | Some callee =>
          when (timeout_ms svc <? timeout_ms callee)%float
            (findings_append
               (timeout_inversion_finding name svc callee_name callee))
      | None => ret tt
      end)) ;;
  findings_read.

Definition analyze (threshold : Z) : M (list Finding) :=
  amplification <- detect_retry_amplification threshold ;;
  inversions <- detect_timeout_inversion ;;
  gaps <- detect_circuit_breaker_gaps ;;
  ret (amplification ++ inversions ++ gaps).

End Detectors.

(** ** Vocabulary of the specification *)

(** [writes s c out ps]: on any heap whose dict is [s], [c] returns, leaves
    the dict as it is, appends [out] to [findings] and [ps] to the log. *)
Definition writes (s : Topology) (c : M unit)
    (out : list Finding) (ps : list (list string)) : Prop :=
  forall h, heap_services h = s ->
    c h = Some (tt, mkHeap s (heap_findings h ++ out) (heap_visited h ++ ps)).

(** What [walk] adds to [findings] at a node it visits. *)
Definition flag (threshold current : Z) (path : list string) : list Finding :=
  if (1 <? List.length path)%nat && (threshold <? current)
  then [retry_amplification_finding current path] else [].

(** Big-step reading of [walk] and of its loop over the callees: the findings
    appended and the paths visited, in order. *)
Inductive walks (s : Topology) (threshold : Z)
  : string -> list string -> Z -> list Finding -> list (list string) -> Prop :=
| walks_missing name path product :
    dict_get s name = None ->
    walks s threshold name path product [] []
| walks_node name path product svc out ps :
    dict_get s name = Some svc ->
    walks_calls s threshold (calls svc) path (product * max_retries svc) out ps ->
    walks s threshold name path product
      (flag threshold (product * max_retries svc) path ++ out) (path :: ps)
with walks_calls (s : Topology) (threshold : Z)
  : list string -> list string -> Z -> list Finding -> list (list string) -> Prop :=
| walks_calls_nil path current :
    walks_calls s threshold [] path current [] []
| walks_calls_skip callee rest path current out ps :
    Py.contains path callee = true ->
    walks_calls s threshold rest path current out ps ->
    walks_calls s threshold (callee :: rest) path current out ps
| walks_calls_enter callee rest path current o1 p1 o2 p2 :
    Py.contains path callee = false ->
    walks s threshold callee (path ++ [callee]) current o1 p1 ->
    walks_calls s threshold rest path current o2 p2 ->
    walks_calls s threshold (callee :: rest) path current (o1 ++ o2) (p1 ++ p2).

Scheme walks_mind := Minimality for walks Sort Prop
  with walks_calls_mind := Minimality for walks_calls Sort Prop.
Combined Scheme walks_mutind from walks_mind, walks_calls_mind.

(** The services not on [path]: each recursive call that passes the existence
    check has one fewer. *)
Definition unvisited (s : Topology) (path : list string) : nat :=
  List.length (filter (fun k => negb (Py.contains path k)) (dict_keys s)).

(** Fuel that suffices for [walk name path]. *)
Definition fuel_needed (s : Topology) (name : string) (path : list string) : nat :=
  match dict_get s name with
  | None => 1
  | Some _ => 2 + unvisited s path
  end.

(** [max_retries] of a service of the topology (1 for a name it lacks). *)
Definition retries_of (s : Topology) (n : string) : Z :=
  match dict_get s n with
  | Some svc => max_retries svc
  | None => 1
  end.

(** The amplification factor of a path: the product of [max_retries] over
    its services. *)
Definition chain_product (s : Topology) (p : list string) : Z :=
  fold_left (fun acc n => acc * retries_of s n) p 1.

(** [p] is a path of the call graph: it is not empty, its services exist, and
    each one lists the next among its [calls]. *)
Fixpoint is_call_chain (s : Topology) (p : list string) : bool :=
  match p with
  | [] => false
  | n :: rest =>
      match dict_get s n with
      | None => false
      | Some svc =>
          match rest with
          | [] => true
          | m :: _ => Py.contains (calls svc) m && is_call_chain s rest
          end
      end
  end.

(** A simple path from [start]: a path of the call graph that begins at
    [start] and visits no service twice. *)
Definition simple_path (s : Topology) (start : string) (p : list string) : Prop :=
  is_call_chain s p = true /\ NoDup p /\ hd_error p = Some start.

(** The finding of a path, if it is one to flag. *)
Definition flag_path (s : Topology) (threshold : Z) (p : list string)
  : list Finding :=
  flag threshold (chain_product s p) p.

(** The log a computation leaves when started on a fresh heap. *)
Definition visited_of (c : M unit) (s : Topology) : list (list string) :=
  match c (new_heap s) with
  | Some (_, h) => heap_visited h
  | None => []
  end.

(** The paths [walk] visits when started at [start], in order. *)
Definition explored (s : Topology) (threshold : Z) (start : string)
  : list (list string) :=
  visited_of (walk (S (List.length (dict_keys s))) threshold start [start] 1) s.

(** All the paths [detect_retry_amplification] visits, start node by start
    node, and the findings it returns. *)
Definition all_explored (s : Topology) (threshold : Z) : list (list string) :=
  flat_map (explored s threshold) (dict_keys s).

Definition retry_amplifications (s : Topology) (threshold : Z) : list Finding :=
  flat_map (flag_path s threshold) (all_explored s threshold).

(** The findings of [detect_circuit_breaker_gaps], service by service. *)
Definition circuit_breaker_gaps (s : Topology) : list Finding :=
  flat_map (fun '(name, svc) =>
    if truthy (calls svc) && negb (has_circuit_breaker svc)
    then [circuit_breaker_gap_finding name svc] else []) s.

(** The findings of [detect_timeout_inversion], edge by edge. *)
Definition timeout_inversions (float_str : float -> string) (s : Topology)
  : list Finding :=
  flat_map (fun '(name, svc) =>
    flat_map (fun callee_name =>
      match dict_get s callee_name with
      | Some callee =>
          if (timeout_ms svc <? timeout_ms callee)%float
          then [timeout_inversion_finding float_str name svc callee_name callee]
          else []
      | None => []
      end) (calls svc)) s.

(** A string that does not begin, or end, with whitespace. *)
Definition starts_clean (s : Py.text) : bool :=
  match s with
  | [] => true
  | c :: _ => negb (Py.isspace c)
  end.



(** The findings of a list whose path is [p]. *)
Definition findings_for (p : list string) (findings : list Finding)
  : list Finding :=
  filter (fun f => if list_eq_dec string_dec (path f) p then true else false)
         findings.

(** The number of ways to walk a path edge by edge: the product, over its
    edges, of the number of times the caller's [calls] list names the
    callee. *)
Fixpoint edge_multiplicity (s : Topology) (p : list string) : nat :=
  match p with
  | n :: rest =>
      match rest with
      | m :: _ =>
          match dict_get s n with
          | Some svc => count_occ string_dec (calls svc) m * edge_multiplicity s rest
          | None => 0
          end
      | [] => 1
      end
  | [] => 1
  end.

(** Is [c] the name of a service of [s]? *)
Definition exists_in (s : Topology) (c : string) : bool :=
  match dict_get s c with Some _ => true | None => false end.

(** [svc] without the [calls] entries that name no service of [s]. *)
Definition drop_dangling (s : Topology) (svc : ServiceConfig) : ServiceConfig :=
  mkServiceConfig (name svc) (timeout_ms svc) (max_retries svc)
    (has_circuit_breaker svc) (filter (exists_in s) (calls svc)).

(** The topology with every dangling [calls] entry removed. *)
Definition without_dangling (s : Topology) : Topology :=
  map (fun '(k, svc) => (k, drop_dangling s svc)) s.

(** ** The loader *)

#[local] Set Warnings "-register-all".

(** A value of the document: what [yaml.safe_load] builds from null,
    booleans, integers, floats, strings, sequences and mappings with string
    keys, or the same written as Python literals, as the tests do. A [str]
    is the list of its code points, a dict the list of its items in order. *)
Inductive Yaml :=
| YNull
| YBool (b : bool)
| YInt (n : Z)
| YFloat (x : float)
| YStr (s : Py.text)
| YList (items : list Yaml)
| YMap (entries : list (Py.text * Yaml)).

(** [bool(v)]: [None], [False], zero, and the empty string, list and dict are
    false. *)
Definition truth (v : Yaml) : bool :=
  match v with
  | YNull => false
  | YBool b => b
  | YInt n => negb (n =? 0)
  | YFloat x => negb (x =? 0)%float
  | YStr s => truthy s
  | YList items => truthy items
  | YMap entries => truthy entries
  end.

(** [d.get(k)] on a dict with [str] keys: the value of the first item with
    key [k]. *)
Fixpoint lookup {A : Type} (d : list (Py.text * A)) (k : Py.text) : option A :=
  match d with
  | [] => None
  | (k', v) :: rest => if Py.text_eqb k k' then Some v else lookup rest k
  end.

(** [d.get(k, default)], from what [d.get(k)] found. *)
Definition get_or {A : Type} (field : option A) (default : A) : A :=
  match field with Some v => v | None => default end.

(** [d[k] = v]: the value of an existing key is replaced where it stands, a
    new key goes to the end. *)
Fixpoint store {A : Type} (d : list (Py.text * A)) (k : Py.text) (v : A)
  : list (Py.text * A) :=
  match d with
  | [] => [(k, v)]
  | (k', v') :: rest =>
      if Py.text_eqb k k' then (k', v) :: rest else (k', v') :: store rest k v
  end.

(** The [ServiceConfig] that [load_topology] builds: the dataclass does not
    check its fields, so [max_retries] holds whatever [max(attempts, 1)]
    returned (an [int], [True] or a [float]) and [calls] whatever value the
    document has under that key. *)
Record LoadedConfig := mkLoadedConfig {
  loaded_name : Py.text;
  loaded_timeout_ms : float;
  loaded_max_retries : Yaml;
  loaded_has_circuit_breaker : bool;
  loaded_calls : Yaml
}.

(** The dict [load_topology] returns. *)
Definition Loaded := list (Py.text * LoadedConfig).

(** [1 > v] is false: [v] is an [int] that is at least 1, [True], or a
    [float] that is not below 1 (nan is one). *)
Definition at_least_one (v : Yaml) : Prop :=
  match v with
  | YInt n => 1 <= n
  | YBool b => b = true
  | YFloat x => (x <? 1)%float = false
  | _ => False
  end.


(** *** The loaded dict as a [Topology]

    The detectors are modelled on a [Topology], whose names are strings,
    whose retry counts are integers and whose [calls] are lists of names. A
    loaded dict is one when its retry counts are [int]s (or [True], which
    multiplies as 1) and its [calls] are lists of [str]s; a name is then the
    string of the UTF-8 bytes of the [str]. *)

Definition utf8 (c : N) : list ascii :=
  (if c <? 128 then [ascii_of_N c]
   else if c <? 2048 then
     [ascii_of_N (192 + c / 64); ascii_of_N (128 + c mod 64)]
   else if c <? 65536 then
     [ascii_of_N (224 + c / 4096); ascii_of_N (128 + (c / 64) mod 64);
      ascii_of_N (128 + c mod 64)]
   else
     [ascii_of_N (240 + c / 262144); ascii_of_N (128 + (c / 4096) mod 64);
      ascii_of_N (128 + (c / 64) mod 64); ascii_of_N (128 + c mod 64)])%N.

Definition name_of (s : Py.text) : string :=
  string_of_list_ascii (flat_map utf8 s).

Fixpoint names_of (items : list Yaml) : option (list string) :=
  match items with
  | [] => Some []
  | YStr s :: rest => option_map (cons (name_of s)) (names_of rest)
  | _ :: _ => None
  end.

Definition retries_as_int (v : Yaml) : option Z :=
  match v with
  | YInt n => Some n
  | YBool b => Some (if b then 1 else 0)
  | _ => None
  end.

Definition as_config (c : LoadedConfig) : option ServiceConfig :=
  match retries_as_int (loaded_max_retries c), loaded_calls c with
  | Some n, YList items =>
      option_map (mkServiceConfig (name_of (loaded_name c)) (loaded_timeout_ms c)
                    n (loaded_has_circuit_breaker c))
                 (names_of items)
  | _, _ => None
  end.

Fixpoint as_topology (loaded : Loaded) : option Topology :=
  match loaded with
  | [] => Some []
  | (k, c) :: rest =>
      match as_config c, as_topology rest with
      | Some svc, Some t => Some ((name_of k, svc) :: t)
      | _, _ => None
      end
  end.

Section Loader.

Variable float_of_str : Py.text -> option float.

(** Two more builtins of Python, not part of the repository: [int(s)] for a
    [str] ([None] stands for its [ValueError]), and [str(v)] for a list or a
    dict. *)
Variable int_of_str : Py.text -> option Z.
Variable str_of : Yaml -> Py.text.

(** [int(retry)]: [None] stands for the [TypeError] raised on [None], a list
    or a dict, and for the error of [int] on a [float] or a [str]. *)
Definition int_of (retry : Yaml) : option Z :=
  match retry with
  | YBool b => Some (if b then 1 else 0)
  | YInt n => Some n
  | YFloat x => Py.int_of_float x
  | YStr s => int_of_str s
  | YNull | YList _ | YMap _ => None
  end.

(** [retry.get("max_attempts", 1) if isinstance(retry, dict) else int(retry)],
    with [retry = cfg.get("retry", {})]. *)
Definition attempts_of (cfg : list (Py.text * Yaml)) : option Yaml :=
  match get_or (lookup cfg (Py.chars "retry")) (YMap []) with
  | YMap retry => Some (get_or (lookup retry (Py.chars "max_attempts")) (YInt 1))
  | retry => option_map YInt (int_of retry)
  end.

(** [max(attempts, 1)]: 1 when [1 > attempts], and [attempts] itself when
    not; [None] stands for the [TypeError] of comparing 1 with a value that
    is no number. *)
Definition max_with_one (attempts : Yaml) : option Yaml :=
  match attempts with
  | YInt n => Some (if n <? 1 then YInt 1 else YInt n)
  | YBool b => Some (if b then YBool true else YInt 1)
  | YFloat x => Some (if (x <? 1)%float then YInt 1 else YFloat x)
  | YNull | YStr _ | YList _ | YMap _ => None
  end.

(** The argument [parse_duration] gets, as it sees it: a [bool] is an [int],
    and what is neither a number nor a [str] goes through [str(s)]. *)
Definition duration_arg (v : Yaml) : PyValue :=
  match v with
  | YBool b => PyInt (if b then 1 else 0)
  | YInt n => PyInt n
  | YFloat x => PyFloat x
  | YStr s => PyStr s
  | YNull => PyStr (Py.chars "None")
  | YList _ | YMap _ => PyStr (str_of v)
  end.

(** [parse_duration(cfg.get("timeout", "30s"))]. *)
Definition timeout_of (cfg : list (Py.text * Yaml)) : option float :=
  parse_duration float_of_str
    (duration_arg (get_or (lookup cfg (Py.chars "timeout"))
                          (YStr (Py.chars "30s")))).

(** The body of the loop, for one item: [None] when it raises, which it does
    when [cfg] is no dict (it has no [get]), when [int(retry)] or
    [parse_duration] or [max] raises. *)
Definition load_service (name : Py.text) (cfg : Yaml) : option LoadedConfig :=
  match cfg with
  | YMap cfg =>
      match attempts_of cfg with
      | None => None
      | Some attempts =>
          match timeout_of cfg with
          | None => None
          | Some timeout =>
              match max_with_one attempts with
              | None => None
              | Some retries =>
                  Some (mkLoadedConfig name timeout retries
                          (truth (get_or (lookup cfg (Py.chars "circuit_breaker"))
                                         YNull))
                          (get_or (lookup cfg (Py.chars "calls")) (YList [])))
              end
          end
      end
  | _ => None
  end.

(** The loop of [load_topology] over the items, from the dict built so far;
    [None] when an item raises. *)
Fixpoint load_services (items : list (Py.text * Yaml)) (services : Loaded)
  : option Loaded :=
  match items with
  | [] => Some services
  | (name, cfg) :: rest =>
      match load_service name cfg with
      | None => None
      | Some svc => load_services rest (store services name svc)
      end
  end.

(** [load_topology(source)] from [services = {}] on: [data] is [source]
    itself when that is a dict, and what [yaml.safe_load] returned when not.
    [None] stands for an exception; a [data] or a value under [services]
    that is no dict raises, having no [get] or no [items]. *)
Definition load_topology (data : Yaml) : option Loaded :=
  match data with
  | YMap data =>
      match get_or (lookup data (Py.chars "services")) (YMap []) with
      | YMap items => load_services items []
      | _ => None
      end
  | _ => None
  end.

End Loader.

(** ** The command line *)

(** The exit status [main] computes from the findings, once it has them
    (the last two lines of [main]). *)
Definition exit_status (strict : bool) (findings : list Finding) : Z :=
  let has_errors :=
    existsb (fun f => String.eqb (severity f) "error") findings in
  if has_errors || (strict && truthy findings) then 1 else 0.

(** ** The SARIF report *)

Module PyText.

Definition is_lower (c : ascii) : bool :=
  let n := nat_of_ascii c in ((97 <=? n)%nat && (n <=? 122)%nat)%bool.

Definition is_upper (c : ascii) : bool :=
  let n := nat_of_ascii c in ((65 <=? n)%nat && (n <=? 90)%nat)%bool.

Definition to_upper (c : ascii) : ascii :=
  if is_lower c then ascii_of_nat (nat_of_ascii c - 32) else c.

Definition to_lower (c : ascii) : ascii :=
  if is_upper c then ascii_of_nat (nat_of_ascii c + 32) else c.

(** [s.title()] on ASCII: a letter is put in upper case when the character
    before it is no letter, in lower case when it is one. *)
Fixpoint title_from (previous_is_cased : bool) (s : string) : string :=
  match s with
  | EmptyString => EmptyString
  | String c rest =>
      String (if previous_is_cased then to_lower c else to_upper c)
             (title_from (is_lower c || is_upper c) rest)
  end.

Definition title (s : string) : string := title_from false s.

(** [s.replace(a, b)] for one-character [a] and [b]. *)
Fixpoint replace_char (a b : ascii) (s : string) : string :=
  match s with
  | EmptyString => EmptyString
  | String c rest =>
      String (if Ascii.eqb c a then b else c) (replace_char a b rest)
  end.

End PyText.

(** An entry of [rules]: [id] and the text of [shortDescription]. *)
Record SarifRule := mkSarifRule {
  sarif_rule_id : string;
  sarif_short_description : string
}.

(** An entry of [results]: [ruleId], [level], the text of [message], and the
    [uri] of its one location. *)
Record SarifResult := mkSarifResult {
  result_rule_id : string;
  result_level : string;
  result_message : string;
  result_uri : string
}.

(** The SARIF log: schema, version, and the one run with its driver. *)
Record SarifLog := mkSarifLog {
  sarif_schema : string;
  sarif_version : string;
  driver_name : string;
  driver_version : string;
  sarif_rules : list SarifRule;
  sarif_results : list SarifResult
}.

(** One turn of the first loop of [to_sarif], on [rules] and the set [seen]. *)
Definition sarif_see (state : list SarifRule * list string) (f : Finding)
  : list SarifRule * list string :=
  let '(rules, seen) := state in
  if negb (Py.contains seen (rule f))
  then (rules ++ [mkSarifRule (rule f)
                    (PyText.title (PyText.replace_char "-" " " (rule f)))],
        rule f :: seen)
  else (rules, seen).

Definition sarif_result (f : Finding) : SarifResult :=
  mkSarifResult (rule f)
    (if String.eqb (severity f) "error" then "error" else "warning")
    (message f) "topology.yaml".

Definition to_sarif (findings : list Finding) : SarifLog :=
  let '(rules, seen) := fold_left sarif_see findings ([], []) in
  let results := map sarif_result findings in
  mkSarifLog "https://json.schemastore.org/sarif-2.1.0.json" "2.1.0"
    "RetryStorm" "0.1.0" rules results.

(** A string of ASCII characters only. *)
Definition is_ascii (s : string) : bool :=
  forallb (fun c => (nat_of_ascii c <? 128)%nat) (list_ascii_of_string s).

(** The rules of a list of findings, each once, in the order they first
    occur. *)
Fixpoint first_occurrences (l : list string) : list string :=
  match l with
  | [] => []
  | x :: rest =>
      x :: filter (fun y => negb (String.eqb y x)) (first_occurrences rest)
  end.

(** The documents of [test_retrystorm.py], and two with an unusual [retry]. *)
Definition service_doc (timeout : string) (attempts : Yaml)
    (breaker : list (Py.text * Yaml)) (callees : list string) : Yaml :=
  YMap ([ (Py.chars "timeout", YStr (Py.chars timeout));
          (Py.chars "retry", YMap [(Py.chars "max_attempts", attempts)]) ]
        ++ breaker
        ++ [ (Py.chars "calls", YList (map (fun c => YStr (Py.chars c)) callees)) ]).

Definition breaker_doc (threshold : Z) : list (Py.text * Yaml) :=
  [ (Py.chars "circuit_breaker", YMap [(Py.chars "threshold", YInt threshold)]) ].

Definition healthy_doc : Yaml :=
  YMap [ (Py.chars "services", YMap
    [ (Py.chars "api", service_doc "10s" (YInt 2) (breaker_doc 5) ["backend"]);
      (Py.chars "backend", service_doc "3s" (YInt 1) (breaker_doc 3) []) ]) ].

Definition unhealthy_doc : Yaml :=
  YMap [ (Py.chars "services", YMap
    [ (Py.chars "gateway", service_doc "3s" (YInt 3) [] ["svc-a"]);
      (Py.chars "svc-a", service_doc "5s" (YInt 4) [] ["svc-b"]);
      (Py.chars "svc-b", service_doc "2s" (YInt 3) [] []) ]) ].

(** [{"services": {"a": {"retry": {"max_attempts": float("nan")}}}}]. *)
Definition nan_attempts_doc : Yaml :=
  YMap [ (Py.chars "services", YMap
    [ (Py.chars "a", YMap [ (Py.chars "retry",
                             YMap [(Py.chars "max_attempts", YFloat nan)]) ]) ]) ].


(** What [load_topology] builds from the unhealthy document. *)
Definition loaded_service (name : string) (timeout : float) (retries : Z)
    (breaker : bool) (callees : list string) : Py.text * LoadedConfig :=
  (Py.chars name,
   mkLoadedConfig (Py.chars name) timeout (YInt retries) breaker
     (YList (map (fun c => YStr (Py.chars c)) callees))).

Definition unhealthy_loaded : Loaded :=
  [ loaded_service "gateway" 3000 3 false ["svc-a"];
    loaded_service "svc-a" 5000 4 false ["svc-b"];
    loaded_service "svc-b" 2000 3 false [] ].

(** ** Topologies used as examples *)

(** The test topologies of [test_retrystorm.py], as [load_topology] builds
    them. *)
Definition unhealthy : Topology :=
  [ ("gateway", mkServiceConfig "gateway" 3000 3 false ["svc-a"]);
    ("svc-a", mkServiceConfig "svc-a" 5000 4 false ["svc-b"]);
    ("svc-b", mkServiceConfig "svc-b" 2000 3 false []) ].

Definition healthy : Topology :=
  [ ("api", mkServiceConfig "api" 10000 2 true ["backend"]);
    ("backend", mkServiceConfig "backend" 3000 1 true []) ].

(** A service that lists the same callee twice. *)
Definition calls_twice : Topology :=
  [ ("a", mkServiceConfig "a" 1000 3 true ["b"; "b"]);
    ("b", mkServiceConfig "b" 1000 4 true []) ].

(** Two services in a row that each list their callee twice. *)
Definition twice_twice : Topology :=
  [ ("a", mkServiceConfig "a" 1000 3 true ["b"; "b"]);
    ("b", mkServiceConfig "b" 1000 4 true ["c"; "c"]);
    ("c", mkServiceConfig "c" 1000 1 true []) ].

(** The cyclic topologies of the specification. *)
Definition self_call : Topology :=
  [ ("a", mkServiceConfig "a" 1000 5 true ["a"]) ].

Definition mutual_calls : Topology :=
  [ ("a", mkServiceConfig "a" 1000 5 true ["b"]);
    ("b", mkServiceConfig "b" 1000 5 true ["a"]) ].

(** A service whose only call is dangling. *)
Definition ghost_call : Topology :=
  [ ("a", mkServiceConfig "a" 1000 1 false ["ghost"]) ].

(** Two topologies that differ in a dangling entry only. *)
Definition with_ghost : Topology :=
  [ ("a", mkServiceConfig "a" 1000 4 true ["ghost"; "b"]);
    ("b", mkServiceConfig "b" 2000 4 true []) ].

Definition no_ghost : Topology :=
  [ ("a", mkServiceConfig "a" 1000 4 true ["b"]);
    ("b", mkServiceConfig "b" 2000 4 true []) ].

(** ** Lists, strings and floats *)

Lemma NoDup_snoc {A : Type} (l : list A) (x : A) :
  NoDup l -> ~ In x l -> NoDup (l ++ [x]).
Proof.
  intros Hl Hx. apply NoDup_app; [assumption | repeat constructor; easy |].
  intros y Hy [<-|[]]. contradiction.
Qed.

Lemma filter_length_lt {A : Type} (f g : A -> bool) (l : list A) (x : A) :
  (forall y, g y = true -> f y = true) ->
  In x l -> f x = true -> g x = false ->
  (List.length (filter g l) < List.length (filter f l))%nat.
Proof.
  intros Hgf. induction l as [|a l IH]; simpl; [contradiction|].
  assert (Hle : forall l', (List.length (filter g l') <= List.length (filter f l'))%nat).
  { induction l' as [|b l' IH']; simpl; [lia|].
    destruct (g b) eqn:Hg.
    - rewrite (Hgf b Hg). simpl. lia.
    - destruct (f b); simpl; lia. }
  intros [->|Hin] Hf Hg.
  - rewrite Hf, Hg. simpl. specialize (Hle l). lia.
  - specialize (IH Hin Hf Hg).
    destruct (g a) eqn:Hga.
    + rewrite (Hgf a Hga). simpl. lia.
    + destruct (f a); simpl; lia.
Qed.

Lemma flat_map_flat_map {A B C : Type} (f : B -> list C) (g : A -> list B) l :
  flat_map f (flat_map g l) = flat_map (fun x => flat_map f (g x)) l.
Proof.
  induction l as [|x l IH]; simpl; [reflexivity|].
  now rewrite flat_map_app, IH.
Qed.

Lemma flat_map_nil {A B : Type} (l : list A) :
  flat_map (fun _ : A => @nil B) l = [].
Proof. induction l; simpl; auto. Qed.

Lemma flat_map_map {A B C : Type} (f : B -> list C) (g : A -> B) l :
  flat_map f (map g l) = flat_map (fun x => f (g x)) l.
Proof. induction l as [|x l IH]; simpl; [reflexivity | now rewrite IH]. Qed.

Lemma contains_In l x : Py.contains l x = true <-> In x l.
Proof.
  unfold Py.contains. rewrite existsb_exists. split.
  - intros [y [Hy He]]. apply String.eqb_eq in He. now subst.
  - intros H. exists x. split; [assumption | apply String.eqb_refl].
Qed.

Lemma contains_not_In l x : Py.contains l x = false <-> ~ In x l.
Proof.
  rewrite <- contains_In. destruct (Py.contains l x); split; congruence.
Qed.








Lemma lstrip_spaces (l x : Py.text) :
  forallb Py.isspace l = true -> Py.lstrip (l ++ x) = Py.lstrip x.
Proof.
  induction l as [|c l IH]; simpl; [reflexivity|].
  intros H. apply andb_true_iff in H. destruct H as [Hc Hl].
  rewrite Hc. now apply IH.
Qed.


Lemma rstrip_spaces (x r : Py.text) :
  forallb Py.isspace r = true -> Py.rstrip (x ++ r) = Py.rstrip x.
Proof.
  intros H. unfold Py.rstrip. rewrite rev_app_distr, lstrip_spaces;
    [reflexivity|].
  rewrite forallb_forall in *. intros c Hc. apply H. now apply in_rev.
Qed.





Lemma float_eqb_not_ltb (x y : float) :
  (x =? y)%float = true -> (x <? y)%float = false.
Proof.
  rewrite FloatAxioms.eqb_spec, FloatAxioms.ltb_spec.
  unfold SFeqb, SFltb. destruct (SFcompare (Prim2SF x) (Prim2SF y)) as [[]|]; easy.
Qed.






(** ** The dict *)

Lemma dict_get_In_keys s k svc : dict_get s k = Some svc -> In k (dict_keys s).
Proof.
  induction s as [|[k' v] s IH]; simpl; [discriminate|].
  destruct (String.eqb_spec k k'); intros H.
  - now left.
  - right. now apply IH.
Qed.

Lemma dict_get_In s k svc : dict_get s k = Some svc -> In (k, svc) s.
Proof.
  induction s as [|[k' v] s IH]; simpl; [discriminate|].
  destruct (String.eqb_spec k k'); intros H.
  - left. congruence.
  - right. now apply IH.
Qed.

Lemma dict_get_map_values (g : ServiceConfig -> ServiceConfig) (l : Topology) k :
  dict_get (map (fun '(k, svc) => (k, g svc)) l) k = option_map g (dict_get l k).
Proof.
  induction l as [|[k' v] l IH]; simpl; [reflexivity|].
  destruct (String.eqb k k'); [reflexivity | exact IH].
Qed.

Lemma dict_get_without_dangling s k :
  dict_get (without_dangling s) k = option_map (drop_dangling s) (dict_get s k).
Proof. apply dict_get_map_values. Qed.

Lemma dict_keys_without_dangling s : dict_keys (without_dangling s) = dict_keys s.
Proof.
  unfold without_dangling, dict_keys. rewrite map_map.
  apply map_ext. now intros [k v].
Qed.

(** ** Computations that only append *)

Lemma writes_ret s : writes s (ret tt) [] [].
Proof.
  intros [s' fs vs] Hs; simpl in *; subst.
  unfold ret; simpl. now rewrite !app_nil_r.
Qed.

Lemma writes_append s f : writes s (findings_append f) [f] [].
Proof.
  intros [s' fs vs] Hs; simpl in *; subst.
  unfold findings_append; simpl. now rewrite app_nil_r.
Qed.

Lemma writes_visit s p : writes s (ghost_visit p) [] [p].
Proof.
  intros [s' fs vs] Hs; simpl in *; subst.
  unfold ghost_visit; simpl. now rewrite app_nil_r.
Qed.

Lemma writes_seq s c1 c2 o1 o2 p1 p2 :
  writes s c1 o1 p1 -> writes s c2 o2 p2 ->
  writes s (c1 ;; c2) (o1 ++ o2) (p1 ++ p2).
Proof.
  intros H1 H2 h Hs. unfold bind. rewrite (H1 h Hs).
  rewrite H2 by reflexivity. simpl. now rewrite !app_assoc.
Qed.

Lemma writes_get s k (f : option ServiceConfig -> M unit) out ps :
  writes s (f (dict_get s k)) out ps ->
  writes s (x <- services_get k ;; f x) out ps.
Proof.
  intros H h Hs. unfold bind, services_get. rewrite Hs. now apply H.
Qed.

Lemma writes_for_each {A : Type} s (l : list A) (body : A -> M unit)
    (fo : A -> list Finding) (fp : A -> list (list string)) :
  (forall x, In x l -> writes s (body x) (fo x) (fp x)) ->
  writes s (for_each l body) (flat_map fo l) (flat_map fp l).
Proof.
  induction l as [|x l IH]; intros Hbody; simpl.
  - apply writes_ret.
  - apply writes_seq.
    + apply Hbody. now left.
    + apply IH. intros y Hy. apply Hbody. now right.
Qed.

Lemma writes_for_each_quiet {A : Type} s (l : list A) (body : A -> M unit)
    (fo : A -> list Finding) :
  (forall x, In x l -> writes s (body x) (fo x) []) ->
  writes s (for_each l body) (flat_map fo l) [].
Proof.
  intros H. rewrite <- (flat_map_nil l). now apply writes_for_each.
Qed.

Create HintDb writes discriminated.
#[local] Hint Resolve writes_ret writes_append writes_visit : writes.

(** Closes a [writes] goal on a conditional append once the test is decided. *)
Ltac writes_cases :=
  try match goal with
      | |- writes _ (when ?b _) _ _ => destruct b
      end;
  simpl; auto with writes.

(** A detector body between [findings = []] and [return findings]. *)
Lemma detector_run s (c : M unit) out ps h :
  writes s c out ps -> heap_services h = s ->
  (findings_new ;; c ;; findings_read) h
  = Some (out, mkHeap s out (heap_visited h ++ ps)).
Proof.
  intros Hc Hs. unfold bind, findings_new, findings_read.
  rewrite Hc by (simpl; assumption). reflexivity.
Qed.

Lemma writes_visited_of s c out ps : writes s c out ps -> visited_of c s = ps.
Proof.
  intros H. unfold visited_of. now rewrite (H (new_heap s) eq_refl).
Qed.

Lemma call_run {A : Type} (c : M A) s x h :
  c (new_heap s) = Some (x, h) -> call c s = Some x.
Proof. intros H. unfold call. now rewrite H. Qed.

(** ** The traversal *)

Lemma unvisited_snoc s path m :
  In m (dict_keys s) -> Py.contains path m = false ->
  (unvisited s (path ++ [m]) < unvisited s path)%nat.
Proof.
  intros Hin Hnot. unfold unvisited.
  apply filter_length_lt with (x := m); try assumption.
  - intros y Hy. apply negb_true_iff in Hy. apply negb_true_iff.
    apply contains_not_In. apply contains_not_In in Hy.
    intros H. apply Hy. apply in_or_app. now left.
  - now rewrite Hnot.
  - apply negb_false_iff. apply contains_In. apply in_or_app. right. now left.
Qed.

Lemma fuel_needed_callee s name svc path callee :
  dict_get s name = Some svc ->
  Py.contains path callee = false ->
  (S (fuel_needed s callee (path ++ [callee])) <= fuel_needed s name path)%nat.
Proof.
  intros Hname Hnot. unfold fuel_needed. rewrite Hname.
  destruct (dict_get s callee) eqn:Hc; [|lia].
  apply dict_get_In_keys in Hc.
  pose proof (unvisited_snoc s path callee Hc Hnot). lia.
Qed.

Lemma fuel_needed_start s start :
  (fuel_needed s start [start] <= S (List.length (dict_keys s)))%nat.
Proof.
  unfold fuel_needed. destruct (dict_get s start) as [svc|] eqn:Hget; [|lia].
  apply dict_get_In_keys in Hget.
  pose proof (unvisited_snoc s [] start Hget eq_refl) as Hlt. simpl in Hlt.
  assert (unvisited s [] <= List.length (dict_keys s))%nat
    by apply filter_length_le.
  lia.
Qed.

(** With enough fuel [walk] returns, and does what [walks] says. *)
Lemma walk_runs s threshold fuel :
  forall name path product,
    (fuel_needed s name path <= fuel)%nat ->
    exists out ps,
      walks s threshold name path product out ps /\
      writes s (walk fuel threshold name path product) out ps.
Proof.
  induction fuel as [|fuel IH]; intros name path product Hfuel.
  - unfold fuel_needed in Hfuel. destruct (dict_get s name); lia.
  - simpl. destruct (dict_get s name) as [svc|] eqn:Hget.
    + assert (Hloop : forall callees, incl callees (calls svc) ->
        exists out ps,
          walks_calls s threshold callees path (product * max_retries svc) out ps /\
          writes s (for_each callees (fun callee =>
            when (negb (Py.contains path callee))
              (walk fuel threshold callee (path ++ [callee])
                 (product * max_retries svc)))) out ps).
      { induction callees as [|callee rest IHl]; intros Hincl.
        - exists [], []. split; [constructor | apply writes_ret].
        - destruct IHl as (o2 & p2 & Hw2 & Hr2).
          { intros x Hx. apply Hincl. now right. }
          destruct (Py.contains path callee) eqn:Hc.
          + exists o2, p2. split; [now constructor|].
            simpl. rewrite Hc. simpl.
            change o2 with ([] ++ o2). change p2 with ([] ++ p2).
            apply writes_seq; [apply writes_ret | exact Hr2].
          + destruct (IH callee (path ++ [callee]) (product * max_retries svc))
              as (o1 & p1 & Hw1 & Hr1).
            { pose proof (fuel_needed_callee s name svc path callee Hget Hc). lia. }
            exists (o1 ++ o2), (p1 ++ p2). split; [now constructor|].
            simpl. rewrite Hc. simpl.
            apply writes_seq; assumption. }
      destruct (Hloop (calls svc) (incl_refl _)) as (out & ps & Hw & Hr).
      exists (flag threshold (product * max_retries svc) path ++ out), (path :: ps).
      split; [now apply walks_node|].
      apply writes_get. rewrite Hget.
      change (path :: ps) with ([path] ++ ps).
      change (flag threshold (product * max_retries svc) path ++ out)
        with ([] ++ (flag threshold (product * max_retries svc) path ++ out)).
      apply writes_seq; [apply writes_visit|].
      change ps with ([] ++ ps).
      apply writes_seq; [|exact Hr].
      unfold flag.
      destruct ((1 <? List.length path)%nat && (threshold <? product * max_retries svc)).
      * apply writes_append.
      * apply writes_ret.
    + exists [], []. split; [now constructor|].
      apply writes_get. rewrite Hget. apply writes_ret.
Qed.

(** [walks] is a function of its inputs. *)
Lemma walks_fun s threshold :
  (forall name path product out ps,
     walks s threshold name path product out ps ->
     forall out' ps', walks s threshold name path product out' ps' ->
     out = out' /\ ps = ps') /\
  (forall callees path current out ps,
     walks_calls s threshold callees path current out ps ->
     forall out' ps', walks_calls s threshold callees path current out' ps' ->
     out = out' /\ ps = ps').
Proof.
  apply walks_mutind.
  - intros name path product Hget out' ps' H'.
    inversion H'; subst; [easy | congruence].
  - intros name path product svc out ps Hget _ IH out' ps' H'.
    inversion H' as [|? ? ? svc' o' p' Hget' Hcalls']; subst; [congruence|].
    assert (svc' = svc) by congruence. subst svc'.
    destruct (IH _ _ Hcalls') as [-> ->]. easy.
  - intros path current out' ps' H'. inversion H'; subst. easy.
  - intros callee rest path current out ps Hc _ IH out' ps' H'.
    inversion H'; subst; [now apply IH | congruence].
  - intros callee rest path current o1 p1 o2 p2 Hc _ IH1 _ IH2 out' ps' H'.
    inversion H' as [| |? ? ? ? o1' p1' o2' p2' Hc' Hw1 Hw2]; subst; [congruence|].
    destruct (IH1 _ _ Hw1) as [-> ->].
    destruct (IH2 _ _ Hw2) as [-> ->]. easy.
Qed.

Lemma walks_missing_inv s threshold name path product out ps :
  dict_get s name = None ->
  walks s threshold name path product out ps -> out = [] /\ ps = [].
Proof.
  intros Hget H. inversion H; subst; [easy | congruence].
Qed.

Lemma chain_product_snoc s pre n :
  chain_product s (pre ++ [n]) = chain_product s pre * retries_of s n.
Proof. unfold chain_product. now rewrite fold_left_app. Qed.

Lemma is_call_chain_last s pre n ext :
  is_call_chain s (pre ++ n :: ext) = true -> exists svc, dict_get s n = Some svc.
Proof.
  induction pre as [|x pre IH]; simpl.
  - destruct (dict_get s n) as [svc|]; [now exists svc | discriminate].
  - destruct (dict_get s x); [|discriminate].
    destruct (pre ++ n :: ext) eqn:E.
    + destruct pre; discriminate.
    + intros H. apply andb_true_iff in H. now apply IH.
Qed.

Lemma is_call_chain_edge s pre n m ext :
  is_call_chain s (pre ++ n :: m :: ext) = true ->
  exists svc, dict_get s n = Some svc /\ In m (calls svc).
Proof.
  induction pre as [|x pre IH]; simpl.
  - destruct (dict_get s n) as [svc|]; [|discriminate].
    intros H. apply andb_true_iff in H. destruct H as [H _].
    exists svc. split; [reflexivity | now apply contains_In].
  - destruct (dict_get s x); [|discriminate].
    destruct (pre ++ n :: m :: ext) eqn:E.
    + destruct pre; discriminate.
    + intros H. apply andb_true_iff in H. now apply IH.
Qed.

Lemma is_call_chain_snoc s pre n svc m svc' :
  is_call_chain s (pre ++ [n]) = true ->
  dict_get s n = Some svc -> In m (calls svc) -> dict_get s m = Some svc' ->
  is_call_chain s ((pre ++ [n]) ++ [m]) = true.
Proof.
  intros H Hn Hm Hm'. induction pre as [|x pre IH]; simpl in *.
  - rewrite Hn, Hm'. apply andb_true_iff. split; [now apply contains_In | reflexivity].
  - destruct (dict_get s x) as [svcx|]; [|discriminate].
    destruct (pre ++ [n]) as [|y l] eqn:E.
    + destruct pre; discriminate.
    + simpl. apply andb_true_iff in H. destruct H as [Hy Hl].
      apply andb_true_iff. split; [assumption | now apply IH].
Qed.

(** What [walk] visits below a path are simple extensions of it, and what it
    appends are the findings of the visited paths. *)
Lemma walks_sound s threshold :
  (forall name path product out ps,
     walks s threshold name path product out ps ->
     forall pre, path = pre ++ [name] -> NoDup path ->
       (forall svc, dict_get s name = Some svc -> is_call_chain s path = true) ->
       product = chain_product s pre ->
       (forall p, In p ps ->
          is_call_chain s p = true /\ NoDup p /\ exists ext, p = path ++ ext) /\
       out = flat_map (flag_path s threshold) ps) /\
  (forall callees path current out ps,
     walks_calls s threshold callees path current out ps ->
     forall pre name svc, path = pre ++ [name] -> dict_get s name = Some svc ->
       incl callees (calls svc) -> NoDup path -> is_call_chain s path = true ->
       current = chain_product s path ->
       (forall p, In p ps ->
          is_call_chain s p = true /\ NoDup p /\
          exists m ext, In m callees /\ p = path ++ m :: ext) /\
       out = flat_map (flag_path s threshold) ps).
Proof.
  apply walks_mutind.
  - intros name path product Hget pre Hpath Hnd Hchain Hprod.
    split; [intros p [] | reflexivity].
  - intros name path product svc out ps Hget _ IH pre Hpath Hnd Hchain Hprod.
    assert (Hcur : product * max_retries svc = chain_product s path).
    { subst path product. rewrite chain_product_snoc. unfold retries_of.
      now rewrite Hget. }
    destruct (IH pre name svc Hpath Hget (incl_refl _) Hnd (Hchain svc Hget)
                Hcur) as [IHp IHo].
    split.
    + intros p [<-|Hp].
      * split; [now apply (Hchain svc)|]. split; [assumption|].
        exists []. now rewrite app_nil_r.
      * destruct (IHp p Hp) as (Hc & Hn & m & ext & _ & ->).
        split; [assumption|]. split; [assumption|]. now exists (m :: ext).
    + simpl. unfold flag_path at 1. rewrite <- Hcur. now rewrite IHo.
  - intros path current pre name svc Hpath Hget Hincl Hnd Hchain Hcur.
    split; [intros p [] | reflexivity].
  - intros callee rest path current out ps Hc _ IH pre name svc
      Hpath Hget Hincl Hnd Hchain Hcur.
    destruct (IH pre name svc Hpath Hget) as [IHp IHo]; try assumption.
    { intros x Hx. apply Hincl. now right. }
    split; [|assumption].
    intros p Hp. destruct (IHp p Hp) as (H1 & H2 & m & ext & Hm & ->).
    split; [assumption|]. split; [assumption|].
    exists m, ext. split; [now right | reflexivity].
  - intros callee rest path current o1 p1 o2 p2 Hc _ IH1 _ IH2 pre name svc
      Hpath Hget Hincl Hnd Hchain Hcur.
    apply contains_not_In in Hc.
    destruct (IH1 path eq_refl) as [IH1p IH1o].
    { now apply NoDup_snoc. }
    { intros svc' Hget'. subst path.
      apply (is_call_chain_snoc s pre name svc callee svc'); try assumption.
      apply Hincl. now left. }
    { assumption. }
    destruct (IH2 pre name svc Hpath Hget) as [IH2p IH2o]; try assumption.
    { intros x Hx. apply Hincl. now right. }
    split.
    + intros p Hp. apply in_app_or in Hp. destruct Hp as [Hp|Hp].
      * destruct (IH1p p Hp) as (H1 & H2 & ext & ->).
        split; [assumption|]. split; [assumption|].
        exists callee, ext. split; [now left|].
        now rewrite <- app_assoc.
      * destruct (IH2p p Hp) as (H1 & H2 & m & ext & Hm & ->).
        split; [assumption|]. split; [assumption|].
        exists m, ext. split; [now right | reflexivity].
    + rewrite flat_map_app. now rewrite IH1o, IH2o.
Qed.

(** Every simple extension of the path is visited. *)
Lemma walks_complete s threshold :
  (forall name path product out ps,
     walks s threshold name path product out ps ->
     forall pre, path = pre ++ [name] ->
     forall ext, is_call_chain s (path ++ ext) = true -> NoDup (path ++ ext) ->
       In (path ++ ext) ps) /\
  (forall callees path current out ps,
     walks_calls s threshold callees path current out ps ->
     forall m ext, In m callees ->
       is_call_chain s (path ++ m :: ext) = true -> NoDup (path ++ m :: ext) ->
       In (path ++ m :: ext) ps).
Proof.
  apply walks_mutind.
  - intros name path product Hget pre -> ext Hchain _.
    rewrite <- app_assoc in Hchain. simpl in Hchain.
    apply is_call_chain_last in Hchain. destruct Hchain as [svc Hsvc]. congruence.
  - intros name path product svc out ps Hget _ IH pre -> ext Hchain Hnd.
    destruct ext as [|m ext].
    + left. now rewrite app_nil_r.
    + right. apply IH; try assumption.
      rewrite <- app_assoc in Hchain. simpl in Hchain.
      apply is_call_chain_edge in Hchain.
      destruct Hchain as (svc' & Hget' & Hm). congruence.
  - intros path current m ext [].
  - intros callee rest path current out ps Hc _ IH m ext Hm Hchain Hnd.
    destruct Hm as [<-|Hm]; [|now apply IH].
    apply contains_In in Hc. exfalso.
    apply NoDup_remove_2 in Hnd. apply Hnd. apply in_or_app. now left.
  - intros callee rest path current o1 p1 o2 p2 Hc _ IH1 _ IH2 m ext Hm Hchain Hnd.
    apply in_or_app. destruct Hm as [<-|Hm].
    + left. replace (path ++ callee :: ext) with ((path ++ [callee]) ++ ext)
        by now rewrite <- app_assoc.
      apply (IH1 path eq_refl); rewrite <- app_assoc; assumption.
    + right. now apply IH2.
Qed.

(** No path is visited twice when no [calls] list repeats a name. *)
Lemma walks_once s threshold :
  (forall n svc, dict_get s n = Some svc -> NoDup (calls svc)) ->
  (forall name path product out ps,
     walks s threshold name path product out ps ->
     forall pre, path = pre ++ [name] -> NoDup path ->
       (forall svc, dict_get s name = Some svc -> is_call_chain s path = true) ->
       product = chain_product s pre ->
       NoDup ps) /\
  (forall callees path current out ps,
     walks_calls s threshold callees path current out ps ->
     forall pre name svc, path = pre ++ [name] -> dict_get s name = Some svc ->
       incl callees (calls svc) -> NoDup path -> is_call_chain s path = true ->
       current = chain_product s path ->
       NoDup callees -> NoDup ps).
Proof.
  intros Hcalls. apply walks_mutind.
  - intros. constructor.
  - intros name path product svc out ps Hget Hw IH pre Hpath Hnd Hchain Hprod.
    assert (Hcur : product * max_retries svc = chain_product s path).
    { subst path product. rewrite chain_product_snoc. unfold retries_of.
      now rewrite Hget. }
    constructor.
    + intros Hin.
      destruct (proj2 (walks_sound s threshold) _ _ _ _ _ Hw pre name svc
                  Hpath Hget (incl_refl _) Hnd (Hchain svc Hget) Hcur) as [Hp _].
      destruct (Hp path Hin) as (_ & _ & m & ext & _ & Heq).
      apply (f_equal (@List.length string)) in Heq.
      rewrite length_app in Heq. simpl in Heq. lia.
    + apply (IH pre name svc); try assumption.
      * apply incl_refl.
      * now apply (Hchain svc).
      * now apply (Hcalls name).
  - intros. constructor.
  - intros callee rest path current out ps Hc _ IH pre name svc
      Hpath Hget Hincl Hnd Hchain Hcur Hndc.
    apply (IH pre name svc); try assumption.
    + intros x Hx. apply Hincl. now right.
    + now inversion Hndc.
  - intros callee rest path current o1 p1 o2 p2 Hc Hw1 IH1 Hw2 IH2 pre name svc
      Hpath Hget Hincl Hnd Hchain Hcur Hndc.
    apply contains_not_In in Hc.
    assert (Hnd' : NoDup (path ++ [callee])) by now apply NoDup_snoc.
    assert (Hchain' : forall svc', dict_get s callee = Some svc' ->
                                   is_call_chain s (path ++ [callee]) = true).
    { intros svc' Hget'. subst path.
      apply (is_call_chain_snoc s pre name svc callee svc'); try assumption.
      apply Hincl. now left. }
    assert (Hincl' : incl rest (calls svc)).
    { intros x Hx. apply Hincl. now right. }
    inversion Hndc as [|? ? Hnotin Hndrest]; subst.
    apply NoDup_app.
    + now apply (IH1 (pre ++ [name])).
    + now apply (IH2 pre name svc).
    + intros p Hp1 Hp2.
      destruct (proj1 (walks_sound s threshold) _ _ _ _ _ Hw1 (pre ++ [name])
                  eq_refl Hnd' Hchain' eq_refl) as [Hs1 _].
      destruct (proj2 (walks_sound s threshold) _ _ _ _ _ Hw2 pre name svc
                  eq_refl Hget Hincl' Hnd Hchain eq_refl) as [Hs2 _].
      destruct (Hs1 p Hp1) as (_ & _ & ext1 & E1).
      destruct (Hs2 p Hp2) as (_ & _ & m & ext2 & Hm & E2).
      rewrite E1 in E2. rewrite <- app_assoc in E2.
      apply app_inv_head in E2. simpl in E2.
      inversion E2; subst. contradiction.
Qed.

(** The traversal from one start node: it returns for any fuel from the one
    [detect_retry_amplification] gives it, with the same effect; it flags the
    paths it visits; it visits the simple paths from [start] and nothing
    else, each once unless some [calls] list repeats a name. *)
Lemma walk_from_start s threshold start :
  (forall fuel, (S (List.length (dict_keys s)) <= fuel)%nat ->
     writes s (walk fuel threshold start [start] 1)
       (flat_map (flag_path s threshold) (explored s threshold start))
       (explored s threshold start)) /\
  (forall p, In p (explored s threshold start) <-> simple_path s start p) /\
  ((forall n svc, dict_get s n = Some svc -> NoDup (calls svc)) ->
   NoDup (explored s threshold start)).
Proof.
  pose proof (fuel_needed_start s start) as Hfuel.
  destruct (walk_runs s threshold _ start [start] 1 Hfuel)
    as (out & ps & Hw & Hr).
  assert (Hex : explored s threshold start = ps)
    by (unfold explored; now apply writes_visited_of with (out := out)).
  assert (Hnd : NoDup [start]) by (repeat constructor; easy).
  assert (Hchain : forall svc, dict_get s start = Some svc ->
                               is_call_chain s [start] = true).
  { intros svc Hget. simpl. now rewrite Hget. }
  destruct (proj1 (walks_sound s threshold) _ _ _ _ _ Hw [] eq_refl Hnd Hchain
              eq_refl) as [Hsound Hout].
  rewrite Hex. split; [|split].
  - intros fuel Hle.
    destruct (walk_runs s threshold fuel start [start] 1) as (out' & ps' & Hw' & Hr');
      [lia|].
    destruct (proj1 (walks_fun s threshold) _ _ _ _ _ Hw _ _ Hw') as [<- <-].
    now rewrite <- Hout.
  - intros p. split.
    + intros Hp. destruct (Hsound p Hp) as (H1 & H2 & ext & ->).
      repeat split; assumption.
    + intros (H1 & H2 & H3). destruct p as [|x ext]; [discriminate|].
      simpl in H3. injection H3 as ->.
      apply (proj1 (walks_complete s threshold) _ _ _ _ _ Hw [] eq_refl ext);
        assumption.
  - intros Hcalls.
    apply (proj1 (walks_once s threshold Hcalls) _ _ _ _ _ Hw [] eq_refl Hnd
             Hchain eq_refl).
Qed.

(** The traversal of the topology without its dangling entries is the
    traversal of the topology. *)
Lemma walks_without_dangling s threshold :
  (forall name path product out ps,
     walks s threshold name path product out ps ->
     walks (without_dangling s) threshold name path product out ps) /\
  (forall callees path current out ps,
     walks_calls s threshold callees path current out ps ->
     walks_calls (without_dangling s) threshold (filter (exists_in s) callees)
       path current out ps).
Proof.
  apply walks_mutind.
  - intros name path product Hget. apply walks_missing.
    rewrite dict_get_without_dangling, Hget. reflexivity.
  - intros name path product svc out ps Hget _ IH.
    change (max_retries svc) with (max_retries (drop_dangling s svc)).
    apply walks_node.
    + rewrite dict_get_without_dangling, Hget. reflexivity.
    + exact IH.
  - intros. simpl. constructor.
  - intros callee rest path current out ps Hc _ IH. simpl.
    destruct (exists_in s callee); [|exact IH].
    now apply walks_calls_skip.
  - intros callee rest path current o1 p1 o2 p2 Hc Hw1 IH1 _ IH2. simpl.
    unfold exists_in at 1. destruct (dict_get s callee) eqn:Hget.
    + now apply walks_calls_enter.
    + destruct (walks_missing_inv _ _ _ _ _ _ _ Hget Hw1) as [-> ->].
      exact IH2.
Qed.

Lemma explored_without_dangling s threshold start :
  explored (without_dangling s) threshold start = explored s threshold start.
Proof.
  destruct (walk_runs s threshold _ start [start] 1 (fuel_needed_start s start))
    as (out & ps & Hw & Hr).
  destruct (walk_runs (without_dangling s) threshold _ start [start] 1
              (fuel_needed_start (without_dangling s) start))
    as (out' & ps' & Hw' & Hr').
  apply (proj1 (walks_without_dangling s threshold)) in Hw.
  destruct (proj1 (walks_fun _ threshold) _ _ _ _ _ Hw _ _ Hw') as [_ <-].
  unfold explored.
  rewrite (writes_visited_of _ _ _ _ Hr), (writes_visited_of _ _ _ _ Hr').
  reflexivity.
Qed.

Lemma chain_product_without_dangling s p :
  chain_product (without_dangling s) p = chain_product s p.
Proof.
  unfold chain_product. generalize 1. induction p as [|n p IH]; intros acc;
    simpl; [reflexivity|].
  rewrite IH. f_equal. f_equal. unfold retries_of.
  rewrite dict_get_without_dangling. now destruct (dict_get s n).
Qed.

Lemma retry_amplifications_without_dangling s threshold :
  retry_amplifications (without_dangling s) threshold
  = retry_amplifications s threshold.
Proof.
  unfold retry_amplifications, all_explored.
  rewrite dict_keys_without_dangling.
  rewrite (flat_map_ext _ _ (explored_without_dangling s threshold)).
  apply flat_map_ext. intros p. unfold flag_path.
  now rewrite chain_product_without_dangling.
Qed.

(** ** What each detector returns *)

Lemma detect_retry_amplification_run threshold h :
  detect_retry_amplification threshold h
  = Some (retry_amplifications (heap_services h) threshold,
          mkHeap (heap_services h)
                 (retry_amplifications (heap_services h) threshold)
                 (heap_visited h ++ all_explored (heap_services h) threshold)).
Proof.
  set (s := heap_services h).
  unfold detect_retry_amplification.
  assert (Hloop : writes s
            (names <- services_names ;;
             for_each names (fun name =>
               walk (S (List.length names)) threshold name [name] 1))
            (retry_amplifications s threshold) (all_explored s threshold)).
  { intros h' Hs. unfold bind at 1. unfold services_names. rewrite Hs.
    unfold retry_amplifications, all_explored. rewrite flat_map_flat_map.
    apply writes_for_each; [|assumption].
    intros name _. unfold dict_keys.
    apply (proj1 (walk_from_start s threshold name)). apply Nat.le_refl. }
  pose proof (detector_run s _ _ _ h Hloop eq_refl) as Hrun.
  unfold bind in *. exact Hrun.
Qed.

Lemma detect_circuit_breaker_gaps_run h :
  detect_circuit_breaker_gaps h
  = Some (circuit_breaker_gaps (heap_services h),
          mkHeap (heap_services h) (circuit_breaker_gaps (heap_services h))
                 (heap_visited h)).
Proof.
  set (s := heap_services h).
  assert (Hloop : writes s
            (items <- services_items ;;
             for_each items (fun '(name, svc) =>
               when (truthy (calls svc) && negb (has_circuit_breaker svc))
                 (findings_append (circuit_breaker_gap_finding name svc))))
            (circuit_breaker_gaps s) []).
  { intros h' Hs. unfold bind at 1. unfold services_items. rewrite Hs.
    apply writes_for_each_quiet; [|assumption].
    intros [name svc] _. writes_cases. }
  pose proof (detector_run s _ _ _ h Hloop eq_refl) as Hrun.
  rewrite app_nil_r in Hrun.
  unfold detect_circuit_breaker_gaps, bind in *. exact Hrun.
Qed.

Lemma in_flag threshold current p f :
  In f (flag threshold current p) -> f = retry_amplification_finding current p.
Proof.
  unfold flag.
  destruct ((1 <? List.length p)%nat && (threshold <? current)); simpl;
    intros H; [|contradiction].
  destruct H as [<-|[]]. reflexivity.
Qed.

Lemma in_circuit_breaker_gaps s f :
  In f (circuit_breaker_gaps s) ->
  exists name svc, In (name, svc) s /\ f = circuit_breaker_gap_finding name svc.
Proof.
  unfold circuit_breaker_gaps. rewrite in_flat_map.
  intros [[name svc] [Hin Hf]].
  destruct (truthy (calls svc) && negb (has_circuit_breaker svc)); [|destruct Hf].
  destruct Hf as [<-|[]]. now exists name, svc.
Qed.

Lemma in_all_explored s threshold p :
  In p (all_explored s threshold) <-> exists start, simple_path s start p.
Proof.
  unfold all_explored. rewrite in_flat_map. split.
  - intros [start [_ Hp]]. exists start.
    now apply (proj1 (proj2 (walk_from_start s threshold start))).
  - intros [start Hp]. exists start. split.
    + destruct Hp as (Hc & _ & Hhd). destruct p as [|x p]; [discriminate|].
      simpl in Hhd. injection Hhd as ->. simpl in Hc.
      destruct (dict_get s start) eqn:Hget; [|discriminate].
      now apply dict_get_In_keys in Hget.
    + now apply (proj1 (proj2 (walk_from_start s threshold start))).
Qed.

Lemma in_retry_amplifications s threshold f :
  In f (retry_amplifications s threshold) <->
  exists start p,
    simple_path s start p /\ (1 < List.length p)%nat /\
    threshold < chain_product s p /\
    f = retry_amplification_finding (chain_product s p) p.
Proof.
  unfold retry_amplifications. rewrite in_flat_map. split.
  - intros [p [Hp Hf]]. apply in_all_explored in Hp. destruct Hp as [start Hp].
    unfold flag_path, flag in Hf.
    destruct (1 <? List.length p)%nat eqn:Hlen; [|destruct Hf].
    destruct (threshold <? chain_product s p) eqn:Hlt; [|destruct Hf].
    destruct Hf as [<-|[]]. exists start, p.
    repeat split; try apply Hp.
    + now apply Nat.ltb_lt.
    + now apply Z.ltb_lt.
  - intros (start & p & Hp & Hlen & Hlt & ->). exists p. split.
    + apply in_all_explored. now exists start.
    + unfold flag_path, flag.
      apply Nat.ltb_lt in Hlen. apply Z.ltb_lt in Hlt.
      rewrite Hlen, Hlt. now left.
Qed.

Section Findings.

Variable float_str : float -> string.

Lemma detect_timeout_inversion_run h :
  detect_timeout_inversion float_str h
  = Some (timeout_inversions float_str (heap_services h),
          mkHeap (heap_services h) (timeout_inversions float_str (heap_services h))
                 (heap_visited h)).
Proof.
  set (s := heap_services h).
  assert (Hloop : writes s
            (items <- services_items ;;
             for_each items (fun '(name, svc) =>
               for_each (calls svc) (fun callee_name =>
                 callee <- services_get callee_name ;;
                 match callee with
                 | Some callee =>
                     when (timeout_ms svc <? timeout_ms callee)%float
                       (findings_append
                          (timeout_inversion_finding float_str name svc
                             callee_name callee))
                 | None => ret tt
                 end)))
            (timeout_inversions float_str s) []).
  { intros h' Hs. unfold bind at 1. unfold services_items. rewrite Hs.
    unfold timeout_inversions.
    apply writes_for_each_quiet; [|assumption].
    intros [name svc] _.
    apply writes_for_each_quiet.
    intros callee_name _. apply writes_get.
    destruct (dict_get s callee_name) as [callee|]; writes_cases. }
  pose proof (detector_run s _ _ _ h Hloop eq_refl) as Hrun.
  rewrite app_nil_r in Hrun.
  unfold detect_timeout_inversion, bind in *. exact Hrun.
Qed.

Lemma analyze_run threshold h :
  analyze float_str threshold h
  = Some (retry_amplifications (heap_services h) threshold
            ++ timeout_inversions float_str (heap_services h)
            ++ circuit_breaker_gaps (heap_services h),
          mkHeap (heap_services h) (circuit_breaker_gaps (heap_services h))
                 (heap_visited h ++ all_explored (heap_services h) threshold)).
Proof.
  unfold analyze, bind.
  rewrite detect_retry_amplification_run.
  rewrite detect_timeout_inversion_run. simpl.
  rewrite detect_circuit_breaker_gaps_run. reflexivity.
Qed.

Lemma in_timeout_inversions (s : Topology) (f : Finding) :
  In f (timeout_inversions float_str s) <->
  exists caller svc callee_name callee,
    In (caller, svc) s /\ In callee_name (calls svc) /\
    dict_get s callee_name = Some callee /\
    (timeout_ms svc <? timeout_ms callee)%float = true /\
    f = timeout_inversion_finding float_str caller svc callee_name callee.
Proof.
  unfold timeout_inversions. rewrite in_flat_map. split.
  - intros [[caller svc] [Hin Hf]]. apply in_flat_map in Hf.
    destruct Hf as [callee_name [Hc Hf]].
    destruct (dict_get s callee_name) as [callee|] eqn:Hget; [|destruct Hf].
    destruct (timeout_ms svc <? timeout_ms callee)%float eqn:Hlt; [|destruct Hf].
    destruct Hf as [<-|[]].
    exists caller, svc, callee_name, callee. repeat split; assumption.
  - intros (caller & svc & callee_name & callee & Hin & Hc & Hget & Hlt & ->).
    exists (caller, svc). split; [assumption|].
    apply in_flat_map. exists callee_name. split; [assumption|].
    rewrite Hget, Hlt. now left.
Qed.

Lemma timeout_inversions_without_dangling s :
  timeout_inversions float_str (without_dangling s)
  = timeout_inversions float_str s.
Proof.
  unfold timeout_inversions.
  set (g := dict_get (without_dangling s)).
  unfold without_dangling. rewrite flat_map_map. subst g.
  apply flat_map_ext. intros [caller svc].
  unfold timeout_inversion_finding. simpl.
  induction (calls svc) as [|c cs IH]; simpl; [reflexivity|].
  unfold exists_in at 1. destruct (dict_get s c) as [callee|] eqn:Hget; simpl.
  - rewrite dict_get_without_dangling, Hget. simpl. now rewrite IH.
  - exact IH.
Qed.

End Findings.

(** ** The claims *)

Section Claims.

(** How an f-string renders a [float], and Python's [float(str)]. *)
Variable float_str : float -> string.
Variable float_of_str : Py.text -> option float.

(** C1, as the code has it: [detect_retry_amplification] and
    [detect_timeout_inversion] ignore dangling [calls] entries. Two topologies
    that differ in such entries only, and the topology without them, get the
    same findings from each of the two; and a service whose calls are all
    dangling starts no finding of theirs. [detect_circuit_breaker_gaps] does
    not look callee names up: a service without a circuit breaker gets its
    finding as soon as its [calls] list is not empty, dangling entries
    included, and the message lists them. *)
Theorem dangling_calls_ignored (services services' : Topology) (threshold : Z) :
  without_dangling services = without_dangling services' ->
  exists amplification inversions gaps,
    call (detect_retry_amplification threshold) services = Some amplification /\
    call (detect_retry_amplification threshold) services' = Some amplification /\
    call (detect_retry_amplification threshold) (without_dangling services)
    = Some amplification /\
    call (detect_timeout_inversion float_str) services = Some inversions /\
    call (detect_timeout_inversion float_str) services' = Some inversions /\
    call (detect_timeout_inversion float_str) (without_dangling services)
    = Some inversions /\
    (forall a,
       (forall svc, In (a, svc) services ->
          forall c, In c (calls svc) -> dict_get services c = None) ->
       forall f, In f (amplification ++ inversions) ->
         hd_error (path f) <> Some a) /\
    call detect_circuit_breaker_gaps services = Some gaps /\
    forall name svc,
      In (name, svc) services ->
      calls svc <> [] -> has_circuit_breaker svc = false ->
      In (mkFinding "circuit-breaker-gap" "warning"
            ("'" ++ name ++ "' calls [" ++ Py.join ", " (calls svc)
               ++ "] without circuit breaker")%string
            [name]) gaps.
Proof.
  intros Heq.
  exists (retry_amplifications services threshold),
         (timeout_inversions float_str services),
         (circuit_breaker_gaps services).
  unfold call.
  rewrite !detect_retry_amplification_run, !detect_timeout_inversion_run,
    detect_circuit_breaker_gaps_run.
  simpl.
  rewrite <- (retry_amplifications_without_dangling services'),
          <- (timeout_inversions_without_dangling float_str services'), <- Heq.
  rewrite !retry_amplifications_without_dangling,
          !timeout_inversions_without_dangling.
  repeat split.
  - intros a Hdangling f Hf Hhd. apply in_app_or in Hf. destruct Hf as [Hf|Hf].
    + apply in_retry_amplifications in Hf.
      destruct Hf as (start & p & (Hc & _ & _) & Hlen & _ & ->). simpl in Hhd.
      destruct p as [|x [|m rest]]; simpl in Hlen; try lia.
      simpl in Hhd. injection Hhd as ->.
      destruct (is_call_chain_edge services [] a m rest Hc) as (svc & Hget & Hm).
      destruct (is_call_chain_last services [a] m rest Hc) as (svc' & Hget').
      apply dict_get_In in Hget.
      rewrite (Hdangling svc Hget m Hm) in Hget'. discriminate.
    + apply in_timeout_inversions in Hf.
      destruct Hf as (caller & svc & callee_name & callee & Hin & Hc & Hget & _ & ->).
      simpl in Hhd. injection Hhd as ->.
      rewrite (Hdangling svc Hin callee_name Hc) in Hget. discriminate.
  - intros name svc Hin Hcalls Hcb.
    unfold circuit_breaker_gaps. apply in_flat_map.
    exists (name, svc). split; [assumption|].
    rewrite Hcb. destruct (calls svc) eqn:E; [congruence|]. simpl.
    left. unfold circuit_breaker_gap_finding. now rewrite E.
Qed.

(** C2: [detect_retry_amplification] visits the simple paths of the call
    graph, and returns a finding for a visited path exactly when the path has
    more than one node and the product of [max_retries] over its services is
    strictly above the threshold. The finding has rule retry-amplification,
    severity error, the visited path as its path, and a message that gives the
    factor. On the test chain gateway (3) -> svc-a (4) -> svc-b (3) with
    threshold 10, the findings include the one of factor 36 whose path is the
    whole chain. *)
Theorem detect_retry_amplification_flags (services : Topology) (threshold : Z) :
  exists out h',
    detect_retry_amplification threshold (new_heap services) = Some (out, h') /\
    out = flat_map (fun p =>
            if (1 <? List.length p)%nat
               && (threshold <? chain_product services p)
            then [mkFinding "retry-amplification" "error"
                    ("Retry amplification "
                       ++ Py.str_of_int (chain_product services p)
                       ++ "x along " ++ Py.join " -> " p)%string
                    p]
            else [])
          (heap_visited h') /\
    (forall p, In p (heap_visited h') <-> exists start, simple_path services start p) /\
    call (detect_retry_amplification default_threshold) unhealthy
    = Some [ mkFinding "retry-amplification" "error"
               "Retry amplification 12x along gateway -> svc-a"
               ["gateway"; "svc-a"];
             mkFinding "retry-amplification" "error"
               "Retry amplification 36x along gateway -> svc-a -> svc-b"
               ["gateway"; "svc-a"; "svc-b"];
             mkFinding "retry-amplification" "error"
               "Retry amplification 12x along svc-a -> svc-b"
               ["svc-a"; "svc-b"] ].
Proof.
  do 2 eexists. split; [apply detect_retry_amplification_run|].
  simpl. split; [reflexivity|]. split; [|reflexivity].
  intros p. apply in_all_explored.
Qed.

(** C3: [detect_timeout_inversion] returns a finding for an edge from a
    caller to a callee name exactly when the callee is in the topology and the
    caller's [timeout_ms] is strictly below the callee's; the finding has rule
    timeout-inversion, severity warning and the path [caller; callee]. Equal
    timeouts are not flagged. On the test topology, where gateway (3000 ms)
    calls svc-a (5000 ms), it returns that one finding. *)
Theorem detect_timeout_inversion_strict (services : Topology) :
  exists out,
    call (detect_timeout_inversion float_str) services = Some out /\
    (forall f, In f out <->
       exists caller svc callee_name callee,
         In (caller, svc) services /\ In callee_name (calls svc) /\
         dict_get services callee_name = Some callee /\
         (timeout_ms svc <? timeout_ms callee)%float = true /\
         f = mkFinding "timeout-inversion" "warning"
               (caller ++ " timeout (" ++ float_str (timeout_ms svc) ++ "ms) < "
                  ++ callee_name ++ " (" ++ float_str (timeout_ms callee)
                  ++ "ms)")%string
               [caller; callee_name]) /\
    ((forall caller svc callee_name callee,
        In (caller, svc) services -> In callee_name (calls svc) ->
        dict_get services callee_name = Some callee ->
        (timeout_ms svc =? timeout_ms callee)%float = true) ->
     out = []) /\
    call (detect_timeout_inversion float_str) unhealthy
    = Some [mkFinding "timeout-inversion" "warning"
              ("gateway timeout (" ++ float_str 3000 ++ "ms) < svc-a ("
                 ++ float_str 5000 ++ "ms)")%string
              ["gateway"; "svc-a"]].
Proof.
  exists (timeout_inversions float_str services).
  split; [|split; [|split]].
  - apply call_run with (h := mkHeap services
                                (timeout_inversions float_str services) []).
    now rewrite detect_timeout_inversion_run.
  - intros f. apply in_timeout_inversions.
  - intros Heq. destruct (timeout_inversions float_str services) as [|f l] eqn:E;
      [reflexivity|].
    assert (Hf : In f (timeout_inversions float_str services))
      by (rewrite E; now left).
    apply in_timeout_inversions in Hf.
    destruct Hf as (caller & svc & callee_name & callee & H1 & H2 & H3 & H4 & _).
    pose proof (float_eqb_not_ltb _ _ (Heq _ _ _ _ H1 H2 H3)). congruence.
  - reflexivity.
Qed.


(** C5: [detect_circuit_breaker_gaps] returns, in the order of the dict, one
    finding for each service whose [calls] list is not empty and whose
    [has_circuit_breaker] is false, whatever the number of callees: rule
    circuit-breaker-gap, severity warning, path the one-element list of the
    service's name. A service with a breaker or with no calls gives none. *)
Theorem detect_circuit_breaker_gaps_one_per_service (services : Topology) :
  call detect_circuit_breaker_gaps services
  = Some (map (fun '(name, svc) =>
                 mkFinding "circuit-breaker-gap" "warning"
                   ("'" ++ name ++ "' calls [" ++ Py.join ", " (calls svc)
                      ++ "] without circuit breaker")%string
                   [name])
              (filter (fun '(_, svc) =>
                         negb (List.length (calls svc) =? 0)%nat
                         && negb (has_circuit_breaker svc))
                      services)).
Proof.
  apply call_run with (h := mkHeap services
                              (circuit_breaker_gaps services) []).
  rewrite detect_circuit_breaker_gaps_run. simpl. f_equal. f_equal.
  induction services as [|[name svc] l IH]; [reflexivity|].
  simpl. rewrite IH.
  destruct (calls svc) as [|c cs] eqn:Hc; simpl; [reflexivity|].
  destruct (has_circuit_breaker svc); simpl; [reflexivity|].
  unfold circuit_breaker_gap_finding. now rewrite Hc.
Qed.

(** C6: [analyze] returns the findings of [detect_retry_amplification], then
    those of [detect_timeout_inversion], then those of
    [detect_circuit_breaker_gaps], each in the order its detector gives; the
    threshold reaches the first detector only, so under another threshold
    the last two parts are the same. *)
Theorem analyze_concatenates (services : Topology) (threshold : Z) :
  exists amplification inversions gaps,
    call (detect_retry_amplification threshold) services = Some amplification /\
    call (detect_timeout_inversion float_str) services = Some inversions /\
    call detect_circuit_breaker_gaps services = Some gaps /\
    call (analyze float_str threshold) services
    = Some (amplification ++ inversions ++ gaps) /\
    forall threshold', exists amplification',
      call (detect_retry_amplification threshold') services
      = Some amplification' /\
      call (analyze float_str threshold') services
      = Some (amplification' ++ inversions ++ gaps).
Proof.
  exists (retry_amplifications services threshold),
         (timeout_inversions float_str services),
         (circuit_breaker_gaps services).
  unfold call.
  rewrite detect_retry_amplification_run, detect_timeout_inversion_run,
    detect_circuit_breaker_gaps_run, analyze_run. simpl.
  repeat split.
  intros threshold'. exists (retry_amplifications services threshold').
  rewrite detect_retry_amplification_run, analyze_run. simpl. split; reflexivity.
Qed.

(** C7: every finding [analyze] returns has one of the three rules, with the
    severity that goes with it: error for retry-amplification, warning for
    timeout-inversion and for circuit-breaker-gap; so its severity is error
    exactly when its rule is retry-amplification. *)
Theorem analyze_rule_fixes_severity (services : Topology) (threshold : Z) :
  exists out,
    call (analyze float_str threshold) services = Some out /\
    forall f, In f out ->
      ((rule f = "retry-amplification" /\ severity f = "error") \/
       (rule f = "timeout-inversion" /\ severity f = "warning") \/
       (rule f = "circuit-breaker-gap" /\ severity f = "warning")) /\
      (severity f = "error" <-> rule f = "retry-amplification").
Proof.
  eexists. split.
  - unfold call. rewrite analyze_run. reflexivity.
  - intros f Hf.
    assert (H : (rule f = "retry-amplification" /\ severity f = "error") \/
                (rule f = "timeout-inversion" /\ severity f = "warning") \/
                (rule f = "circuit-breaker-gap" /\ severity f = "warning")).
    { simpl in Hf. apply in_app_or in Hf. destruct Hf as [Hf|Hf].
      - left. unfold retry_amplifications in Hf. apply in_flat_map in Hf.
        destruct Hf as [p [_ Hf]]. apply in_flag in Hf. subst f. now split.
      - apply in_app_or in Hf. destruct Hf as [Hf|Hf].
        + right; left. apply in_timeout_inversions in Hf.
          destruct Hf as (? & ? & ? & ? & _ & _ & _ & _ & ->). now split.
        + right; right. apply in_circuit_breaker_gaps in Hf.
          destruct Hf as (? & ? & _ & ->). now split. }
    split; [exact H|].
    destruct H as [[Hr Hs]|[[Hr Hs]|[Hr Hs]]]; rewrite Hr, Hs; split;
      intros; try reflexivity; discriminate.
Qed.

(** C8: [analyze] is a function of the dict and the threshold, and leaves the
    dict as it found it. From any heap it returns, with a result that depends
    on the dict and the threshold only (not on what [findings] or the log
    held); the dict in the heap it leaves is the one it started from; run
    again from the heap it left, it returns the same sequence: same length,
    and the same rule, severity, message and path at each position. *)
Theorem analyze_pure (threshold : Z) (h : Heap) :
  exists out h1 h2,
    analyze float_str threshold h = Some (out, h1) /\
    heap_services h1 = heap_services h /\
    analyze float_str threshold h1 = Some (out, h2) /\
    heap_services h2 = heap_services h /\
    call (analyze float_str threshold) (heap_services h) = Some out /\
    forall h', heap_services h' = heap_services h ->
      exists out' h1',
        analyze float_str threshold h' = Some (out', h1') /\
        heap_services h1' = heap_services h /\
        List.length out' = List.length out /\
        forall i, nth_error out' i = nth_error out i.
Proof.
  do 3 eexists.
  split; [apply analyze_run|].
  split; [reflexivity|].
  split; [rewrite analyze_run; reflexivity|].
  split; [reflexivity|].
  split; [unfold call; rewrite analyze_run; reflexivity|].
  intros h' Hs. do 2 eexists.
  split; [apply analyze_run|]. simpl. rewrite Hs.
  repeat split; reflexivity.
Qed.

(** C9, as the code has it: [detect_retry_amplification] returns on every
    topology, cyclic or not. The traversal from a start node returns for the
    fuel the detector gives it and for any larger one, with the same heap;
    the paths it visits are the simple paths from the start node, all of
    them; and no path is visited twice provided no [calls] list names a
    service twice. On a service that calls itself and on two services that
    call each other the detector returns (here with the findings of the two
    paths of factor 25). *)
Theorem walk_terminates (services : Topology) (threshold : Z) :
  (exists out h',
     detect_retry_amplification threshold (new_heap services) = Some (out, h')) /\
  (forall start, exists h1,
     (forall fuel, (S (List.length (dict_keys services)) <= fuel)%nat ->
        walk fuel threshold start [start] 1 (new_heap services) = Some (tt, h1)) /\
     (forall p, In p (heap_visited h1) <-> simple_path services start p) /\
     ((forall n svc, dict_get services n = Some svc -> NoDup (calls svc)) ->
      NoDup (heap_visited h1))) /\
  call (detect_retry_amplification default_threshold) self_call = Some [] /\
  call (detect_retry_amplification default_threshold) mutual_calls
  = Some [ retry_amplification_finding 25 ["a"; "b"];
           retry_amplification_finding 25 ["b"; "a"] ].
Proof.
  split; [|split; [|split; reflexivity]].
  - do 2 eexists. apply detect_retry_amplification_run.
  - intros start.
    destruct (walk_from_start services threshold start) as (Hrun & Hiff & Honce).
    eexists. split; [|split].
    + intros fuel Hfuel. apply (Hrun fuel Hfuel (new_heap services) eq_refl).
    + exact Hiff.
    + exact Honce.
Qed.

(** C10: a service whose [calls] name only the service itself starts no
    flagged path: whatever its [max_retries] and the threshold, no finding of
    [detect_retry_amplification] has a path that begins at it; and when it is
    the only service of the topology, there is no finding at all. *)
Theorem self_retry_invisible (services : Topology) (threshold : Z)
    (a : string) (svc : ServiceConfig) :
  dict_get services a = Some svc ->
  (forall callee, In callee (calls svc) -> callee = a) ->
  exists out,
    call (detect_retry_amplification threshold) services = Some out /\
    (forall f, In f out -> hd_error (path f) <> Some a) /\
    (services = [(a, svc)] -> out = []).
Proof.
  intros Hget Hself.
  exists (retry_amplifications services threshold).
  split; [unfold call; now rewrite detect_retry_amplification_run|].
  assert (Hnot : forall f, In f (retry_amplifications services threshold) ->
            hd_error (path f) <> Some a).
  { intros f Hf Hhd. apply in_retry_amplifications in Hf.
    destruct Hf as (start & p & (Hc & Hnd & _) & Hlen & _ & ->). simpl in Hhd.
    destruct p as [|x [|m rest]]; simpl in Hlen; try lia.
    simpl in Hhd. injection Hhd as ->.
    pose proof (is_call_chain_edge services [] a m rest Hc) as (svc' & Hget' & Hm).
    assert (svc' = svc) by congruence. subst svc'.
    apply Hself in Hm. subst m.
    inversion Hnd as [|? ? Hin _]. apply Hin. now left. }
  split; [exact Hnot|].
  intros Hs. destruct (retry_amplifications services threshold) as [|f l] eqn:E;
    [reflexivity|]. exfalso.
  assert (Hf : In f (retry_amplifications services threshold))
    by (rewrite E; now left).
  rewrite <- E in Hnot.
  apply (Hnot f Hf). apply in_retry_amplifications in Hf.
  destruct Hf as (start & p & (Hc & _ & Hhd) & _ & _ & ->). simpl.
  rewrite Hhd. f_equal.
  destruct p as [|x rest]; [discriminate|].
  simpl in Hhd. injection Hhd as ->. simpl in Hc. subst services. simpl in Hc.
  destruct (String.eqb_spec start a); [assumption | discriminate].
Qed.

End Claims.

(** ** Counterexamples and instances *)

(** C1 as stated fails for [detect_circuit_breaker_gaps]: a service whose only
    call is dangling gets a finding, and loses it when the entry is removed. *)
Lemma dangling_call_counts_for_breaker_gap :
  dict_wf ghost_call /\
  dict_get ghost_call "ghost" = None /\
  call detect_circuit_breaker_gaps ghost_call
  = Some [ mkFinding "circuit-breaker-gap" "warning"
             "'a' calls [ghost] without circuit breaker" ["a"] ] /\
  call detect_circuit_breaker_gaps (without_dangling ghost_call) = Some [] /\
  call detect_circuit_breaker_gaps ghost_call
  <> call detect_circuit_breaker_gaps (without_dangling ghost_call).
Proof.
  split; [repeat constructor; simpl; tauto|].
  repeat split; try reflexivity. discriminate.
Qed.

Lemma dangling_calls_ignored_witness :
  without_dangling with_ghost = without_dangling no_ghost /\
  exists out,
    call (detect_retry_amplification 10) with_ghost = Some out /\
    call (detect_retry_amplification 10) no_ghost = Some out.
Proof.
  split; [reflexivity|].
  destruct (dangling_calls_ignored (fun _ => EmptyString) with_ghost no_ghost 10
              eq_refl) as (amplification & _ & _ & H1 & H2 & _).
  exists amplification. now split.
Defined.

(** C9 as stated fails where a [calls] list repeats a name: from start node
    a, with [calls = ["b"; "b"]], the simple path a -> b is visited twice (and
    flagged twice). *)
Lemma repeated_callee_explored_twice :
  dict_wf calls_twice /\
  exists h1,
    walk (S (List.length (dict_keys calls_twice))) default_threshold
         "a" ["a"] 1 (new_heap calls_twice) = Some (tt, h1) /\
    simple_path calls_twice "a" ["a"; "b"] /\
    heap_visited h1 = [["a"]; ["a"; "b"]; ["a"; "b"]] /\
    ~ NoDup (heap_visited h1) /\
    heap_findings h1 = [ retry_amplification_finding 12 ["a"; "b"];
                         retry_amplification_finding 12 ["a"; "b"] ].
Proof.
  split; [repeat constructor; simpl; intuition discriminate|].
  eexists. split; [vm_compute; reflexivity|]. simpl.
  split; [|split; [reflexivity|split; [|reflexivity]]].
  - split; [reflexivity|]. split; [|reflexivity].
    repeat constructor; simpl; intuition discriminate.
  - intros H. inversion H as [|? ? _ H']. inversion H' as [|? ? Hin _].
    apply Hin. now left.
Qed.

Lemma self_retry_invisible_witness :
  exists out,
    call (detect_retry_amplification 0) self_call = Some out /\
    (forall f, In f out -> hd_error (path f) <> Some "a") /\
    (self_call = [("a", mkServiceConfig "a" 1000 5 true ["a"])] -> out = []).
Proof.
  apply (self_retry_invisible self_call 0 "a"
           (mkServiceConfig "a" 1000 5 true ["a"])).
  - reflexivity.
  - simpl. intros callee [H|[]]. now symmetry.
Defined.

(** Two services with equal timeouts that call each other: no inversion. *)
Lemma detect_timeout_inversion_strict_witness :
  exists out,
    call (detect_timeout_inversion (fun _ => EmptyString)) mutual_calls = Some out /\
    out = [].
Proof.
  destruct (detect_timeout_inversion_strict (fun _ => EmptyString) mutual_calls)
    as (out & Hcall & _ & Hequal & _).
  exists out. split; [exact Hcall|].
  apply Hequal. intros caller svc callee_name callee Hin Hc Hget.
  simpl in Hin. destruct Hin as [H|[H|[]]]; inversion H; subst; simpl in Hc;
    destruct Hc as [<-|[]]; simpl in Hget; inversion Hget; reflexivity.
Defined.

(** Two services that call each other: from a, the traversal returns having
    visited each of a and a -> b once. *)
Lemma walk_terminates_witness :
  exists h1,
    walk 3 default_threshold "a" ["a"] 1 (new_heap mutual_calls) = Some (tt, h1) /\
    NoDup (heap_visited h1) /\
    (In ["a"; "b"] (heap_visited h1) <-> simple_path mutual_calls "a" ["a"; "b"]).
Proof.
  destruct (walk_terminates mutual_calls default_threshold) as (_ & Hstart & _).
  destruct (Hstart "a") as (h1 & Hrun & Hiff & Honce).
  exists h1. split; [|split].
  - apply Hrun. simpl. apply Nat.le_refl.
  - apply Honce. intros n svc Hget. simpl in Hget.
    destruct (String.eqb n "a"); [|destruct (String.eqb n "b")];
      inversion Hget; subst; simpl; repeat constructor; simpl; tauto.
  - apply Hiff.
Defined.



(** [test_healthy_topology_no_issues]: the healthy topology has no finding,
    whatever renders the floats. *)
Example healthy_topology_no_issues (float_str : float -> string) :
  call (analyze float_str default_threshold) healthy = Some [].
Proof. reflexivity. Qed.

(** ** Further properties of the detectors *)

(** The threshold decides what is flagged, not what is visited. *)
Lemma walks_any_threshold s t t' :
  (forall name path product out ps,
     walks s t name path product out ps ->
     exists out', walks s t' name path product out' ps) /\
  (forall callees path current out ps,
     walks_calls s t callees path current out ps ->
     exists out', walks_calls s t' callees path current out' ps).
Proof.
  apply walks_mutind.
  - intros name path product Hget. exists []. now apply walks_missing.
  - intros name path product svc out ps Hget _ [out' IH].
    eexists. apply walks_node; eassumption.
  - intros. exists []. constructor.
  - intros callee rest path current out ps Hc _ [out' IH].
    exists out'. now apply walks_calls_skip.
  - intros callee rest path current o1 p1 o2 p2 Hc _ [o1' IH1] _ [o2' IH2].
    exists (o1' ++ o2'). now apply walks_calls_enter.
Qed.

Lemma explored_any_threshold s t t' start :
  explored s t start = explored s t' start.
Proof.
  destruct (walk_runs s t _ start [start] 1 (fuel_needed_start s start))
    as (out & ps & Hw & Hr).
  destruct (walk_runs s t' _ start [start] 1 (fuel_needed_start s start))
    as (out' & ps' & Hw' & Hr').
  destruct (proj1 (walks_any_threshold s t t') _ _ _ _ _ Hw) as [out'' Hw''].
  destruct (proj1 (walks_fun s t') _ _ _ _ _ Hw'' _ _ Hw') as [_ <-].
  unfold explored.
  now rewrite (writes_visited_of _ _ _ _ Hr), (writes_visited_of _ _ _ _ Hr').
Qed.

Lemma all_explored_any_threshold s t t' : all_explored s t = all_explored s t'.
Proof.
  unfold all_explored. apply flat_map_ext. intros start.
  apply explored_any_threshold.
Qed.

Lemma filter_flat_map {A B : Type} (g : B -> bool) (f : A -> list B) l :
  filter g (flat_map f l) = flat_map (fun x => filter g (f x)) l.
Proof.
  induction l as [|x l IH]; simpl; [reflexivity|].
  now rewrite filter_app, IH.
Qed.

Lemma retry_amplifications_raise s t t' :
  t <= t' ->
  retry_amplifications s t'
  = filter (fun f => t' <? chain_product s (path f)) (retry_amplifications s t).
Proof.
  intros Hle. unfold retry_amplifications.
  rewrite filter_flat_map, (all_explored_any_threshold s t' t).
  apply flat_map_ext. intros p. unfold flag_path, flag.
  destruct (1 <? List.length p)%nat; simpl.
  - destruct (t <? chain_product s p) eqn:Ht; simpl.
    + now destruct (t' <? chain_product s p).
    + apply Z.ltb_ge in Ht.
      assert (H : (t' <? chain_product s p) = false) by (apply Z.ltb_ge; lia).
      now rewrite H.
  - reflexivity.
Qed.

Lemma is_call_chain_keys s p :
  is_call_chain s p = true -> forall n, In n p -> In n (dict_keys s).
Proof.
  induction p as [|x p IH]; simpl; [discriminate|].
  destruct (dict_get s x) as [svc|] eqn:Hget; [|discriminate].
  intros H n [<-|Hn].
  - now apply dict_get_In_keys in Hget.
  - destruct p as [|m p]; [destruct Hn|].
    apply andb_true_iff in H. now apply IH.
Qed.

Lemma In_keys_dict_get s k :
  In k (dict_keys s) -> exists svc, dict_get s k = Some svc.
Proof.
  induction s as [|[k' v] s IH]; simpl; [contradiction|].
  intros H. destruct (String.eqb_spec k k').
  - now exists v.
  - destruct H as [H|H]; [congruence | now apply IH].
Qed.

Lemma fold_retries_grows s :
  (forall n svc, dict_get s n = Some svc -> 1 <= max_retries svc) ->
  forall q acc, 0 <= acc ->
    acc <= fold_left (fun a n => a * retries_of s n) q acc.
Proof.
  intros Hpos. induction q as [|n q IH]; intros acc Hacc; simpl; [lia|].
  assert (Hr : 1 <= retries_of s n).
  { unfold retries_of. destruct (dict_get s n) eqn:E; [now apply (Hpos n) | lia]. }
  specialize (IH (acc * retries_of s n)). nia.
Qed.

Lemma chain_product_extend s p ext :
  (forall n svc, dict_get s n = Some svc -> 1 <= max_retries svc) ->
  1 <= chain_product s p /\ chain_product s p <= chain_product s (p ++ ext).
Proof.
  intros Hpos.
  assert (H1 : 1 <= chain_product s p)
    by (unfold chain_product; apply fold_retries_grows; [assumption | lia]).
  split; [assumption|].
  unfold chain_product in *. rewrite fold_left_app.
  apply fold_retries_grows; [assumption | lia].
Qed.

Lemma dict_wf_In_get s k v : dict_wf s -> In (k, v) s -> dict_get s k = Some v.
Proof.
  unfold dict_wf, dict_keys. induction s as [|[k' v'] s IH]; simpl; [easy|].
  intros Hnd [Heq|Hin].
  - inversion Heq; subst. now rewrite String.eqb_refl.
  - inversion Hnd as [|? ? Hnot Hnd']; subst.
    destruct (String.eqb_spec k k') as [->|Hne].
    + exfalso. apply Hnot. change k' with (fst (k', v)). now apply in_map.
    + now apply IH.
Qed.

Lemma SFcompare_Lt_swap (x y : spec_float) :
  SFcompare x y = Some Lt -> SFcompare y x = Some Gt.
Proof.
  destruct x as [sx|sx| |sx mx ex], y as [sy|sy| |sy my ey]; simpl;
    try discriminate;
    try (destruct sx; try destruct sy; simpl; congruence);
    try (destruct sy; simpl; congruence).
  change (Pos.compare_cont Eq mx my) with (mx ?= my)%positive.
  change (Pos.compare_cont Eq my mx) with (my ?= mx)%positive.
  rewrite (Z.compare_antisym ex ey), (Pos.compare_antisym mx my).
  destruct sx, sy; try congruence;
    destruct (ex ?= ey); simpl; try congruence;
    destruct (mx ?= my)%positive; simpl; congruence.
Qed.

Lemma float_ltb_asym (x y : float) :
  (x <? y)%float = true -> (y <? x)%float = false.
Proof.
  rewrite !FloatAxioms.ltb_spec. unfold SFltb.
  destruct (SFcompare (Prim2SF x) (Prim2SF y)) as [[]|] eqn:E; try discriminate.
  intros _. now rewrite (SFcompare_Lt_swap _ _ E).
Qed.

(** X1: raising the threshold only removes findings. Under a threshold
    [t' >= t], [detect_retry_amplification] returns the findings it returns
    under [t] whose path has a factor above [t'], in the same order. *)
Theorem raising_threshold_filters (services : Topology) (t t' : Z) :
  t <= t' ->
  exists out,
    call (detect_retry_amplification t) services = Some out /\
    call (detect_retry_amplification t') services
    = Some (filter (fun f => t' <? chain_product services (path f)) out).
Proof.
  intros Hle. exists (retry_amplifications services t).
  unfold call. rewrite !detect_retry_amplification_run. simpl.
  split; [reflexivity|]. now rewrite (retry_amplifications_raise services t t').
Qed.

(** X2: the path of a retry-amplification finding is a path of the call
    graph with at least two services and no service twice, all of them
    services of the topology; so it is never longer than the topology has
    services. *)
Theorem retry_finding_path_bounded (services : Topology) (threshold : Z) :
  exists out,
    call (detect_retry_amplification threshold) services = Some out /\
    forall f, In f out ->
      (2 <= List.length (path f) <= List.length services)%nat /\
      NoDup (path f) /\
      is_call_chain services (path f) = true /\
      (forall n, In n (path f) -> exists svc, dict_get services n = Some svc).
Proof.
  exists (retry_amplifications services threshold).
  unfold call. rewrite detect_retry_amplification_run. simpl.
  split; [reflexivity|]. intros f Hf.
  apply in_retry_amplifications in Hf.
  destruct Hf as (start & p & (Hc & Hnd & _) & Hlen & _ & ->). simpl.
  pose proof (is_call_chain_keys services p Hc) as Hkeys.
  repeat split; try assumption.
  - pose proof (NoDup_incl_length Hnd Hkeys) as Hb.
    unfold dict_keys in Hb. now rewrite length_map in Hb.
  - intros n Hn. apply In_keys_dict_get. now apply Hkeys.
Qed.

(** X4: where every service has [max_retries >= 1] (as every loaded one has),
    the factor never shrinks along a path, so a breach is inherited: if the
    finding of a path is reported, the finding of every simple path that
    extends it is reported too. *)
Theorem amplification_propagates (services : Topology) (threshold : Z) :
  (forall n svc, dict_get services n = Some svc -> 1 <= max_retries svc) ->
  exists out,
    call (detect_retry_amplification threshold) services = Some out /\
    forall start p ext,
      simple_path services start (p ++ ext) ->
      In (retry_amplification_finding (chain_product services p) p) out ->
      chain_product services p <= chain_product services (p ++ ext) /\
      In (retry_amplification_finding (chain_product services (p ++ ext))
            (p ++ ext)) out.
Proof.
  intros Hpos. exists (retry_amplifications services threshold).
  unfold call. rewrite detect_retry_amplification_run. simpl.
  split; [reflexivity|]. intros start p ext Hsimple Hin.
  destruct (chain_product_extend services p ext Hpos) as [_ Hle].
  split; [assumption|].
  apply in_retry_amplifications in Hin.
  destruct Hin as (start' & p' & _ & Hlen & Hlt & Heq).
  assert (p' = p) by (apply (f_equal path) in Heq; simpl in Heq; congruence).
  subst p'. apply in_retry_amplifications.
  exists start, (p ++ ext). repeat split; try apply Hsimple.
  - rewrite length_app. lia.
  - lia.
Qed.

Section DetectorExtras.

Variable float_str : float -> string.

(** X3: [analyze] reports nothing exactly when no simple path of two or more
    services has a factor above the threshold, no service has a shorter
    timeout than a service of the topology it calls, and every service that
    lists calls has a circuit breaker. *)
Theorem analyze_clean_iff (services : Topology) (threshold : Z) :
  call (analyze float_str threshold) services = Some [] <->
  (forall start p, simple_path services start p -> (1 < List.length p)%nat ->
     chain_product services p <= threshold) /\
  (forall caller svc callee_name callee,
     In (caller, svc) services -> In callee_name (calls svc) ->
     dict_get services callee_name = Some callee ->
     (timeout_ms svc <? timeout_ms callee)%float = false) /\
  (forall name svc, In (name, svc) services ->
     calls svc = [] \/ has_circuit_breaker svc = true).
Proof.
  unfold call. rewrite analyze_run. simpl. split.
  - intros H. injection H as H.
    apply app_eq_nil in H. destruct H as [Hr H].
    apply app_eq_nil in H. destruct H as [Ht Hg].
    split; [|split].
    + intros start p Hp Hlen.
      destruct (Z.leb_spec (chain_product services p) threshold) as [|Hlt];
        [assumption|]. exfalso.
      assert (Hin : In (retry_amplification_finding (chain_product services p) p)
                       (retry_amplifications services threshold)).
      { apply in_retry_amplifications. now exists start, p. }
      rewrite Hr in Hin. destruct Hin.
    + intros caller svc callee_name callee Hin Hc Hget.
      destruct (timeout_ms svc <? timeout_ms callee)%float eqn:Hlt; [|reflexivity].
      exfalso.
      assert (Hf : In (timeout_inversion_finding float_str caller svc callee_name
                         callee) (timeout_inversions float_str services)).
      { apply in_timeout_inversions.
        now exists caller, svc, callee_name, callee. }
      rewrite Ht in Hf. destruct Hf.
    + intros name svc Hin.
      destruct (calls svc) as [|c cs] eqn:Hc; [now left|]. right.
      destruct (has_circuit_breaker svc) eqn:Hcb; [reflexivity|]. exfalso.
      assert (Hf : In (circuit_breaker_gap_finding name svc)
                      (circuit_breaker_gaps services)).
      { unfold circuit_breaker_gaps. apply in_flat_map. exists (name, svc).
        split; [assumption|]. rewrite Hc, Hcb. now left. }
      rewrite Hg in Hf. destruct Hf.
  - intros (Hr & Ht & Hg). f_equal.
    assert (Er : retry_amplifications services threshold = []).
    { destruct (retry_amplifications services threshold) as [|f l] eqn:E;
        [reflexivity|]. exfalso.
      assert (Hf : In f (retry_amplifications services threshold))
        by (rewrite E; now left).
      apply in_retry_amplifications in Hf.
      destruct Hf as (start & p & Hp & Hlen & Hlt & _).
      specialize (Hr start p Hp Hlen). lia. }
    assert (Et : timeout_inversions float_str services = []).
    { destruct (timeout_inversions float_str services) as [|f l] eqn:E;
        [reflexivity|]. exfalso.
      assert (Hf : In f (timeout_inversions float_str services))
        by (rewrite E; now left).
      apply in_timeout_inversions in Hf.
      destruct Hf as (caller & svc & callee_name & callee & H1 & H2 & H3 & H4 & _).
      rewrite (Ht _ _ _ _ H1 H2 H3) in H4. discriminate. }
    assert (Eg : circuit_breaker_gaps services = []).
    { destruct (circuit_breaker_gaps services) as [|f l] eqn:E;
        [reflexivity|]. exfalso.
      assert (Hf : In f (circuit_breaker_gaps services))
        by (rewrite E; now left).
      unfold circuit_breaker_gaps in Hf. apply in_flat_map in Hf.
      destruct Hf as [[name svc] [Hin Hf]].
      destruct (Hg name svc Hin) as [Hc|Hcb].
      - rewrite Hc in Hf. destruct Hf.
      - rewrite Hcb, andb_false_r in Hf. destruct Hf. }
    now rewrite Er, Et, Eg.
Qed.

(** X5: on a dict (each key once), timeout inversions never go both ways: no
    two findings of [detect_timeout_inversion] have the paths [a; b] and
    [b; a]. In particular a service that calls itself is never flagged. *)
Theorem timeout_inversion_one_way (services : Topology) :
  dict_wf services ->
  exists out,
    call (detect_timeout_inversion float_str) services = Some out /\
    (forall f g a b, In f out -> In g out ->
       path f = [a; b] -> path g = [b; a] -> False) /\
    (forall f a, In f out -> path f <> [a; a]).
Proof.
  intros Hwf. exists (timeout_inversions float_str services).
  unfold call. rewrite detect_timeout_inversion_run. simpl.
  split; [reflexivity|].
  assert (Hone : forall f g a b,
            In f (timeout_inversions float_str services) ->
            In g (timeout_inversions float_str services) ->
            path f = [a; b] -> path g = [b; a] -> False).
  { intros f g a b Hf Hg Hpf Hpg.
    apply in_timeout_inversions in Hf. apply in_timeout_inversions in Hg.
    destruct Hf as (c1 & s1 & n1 & e1 & Hin1 & _ & Hget1 & Hlt1 & ->).
    destruct Hg as (c2 & s2 & n2 & e2 & Hin2 & _ & Hget2 & Hlt2 & ->).
    simpl in Hpf, Hpg. inversion Hpf; inversion Hpg; subst.
    rewrite (dict_wf_In_get _ _ _ Hwf Hin2) in Hget1.
    rewrite (dict_wf_In_get _ _ _ Hwf Hin1) in Hget2.
    inversion Hget1; inversion Hget2; subst.
    apply float_ltb_asym in Hlt1. congruence. }
  split; [exact Hone|].
  intros f a Hf Hp. exact (Hone f f a a Hf Hf Hp Hp).
Qed.

End DetectorExtras.

Lemma raising_threshold_filters_witness :
  exists out,
    call (detect_retry_amplification 10) unhealthy = Some out /\
    call (detect_retry_amplification 20) unhealthy
    = Some (filter (fun f => 20 <? chain_product unhealthy (path f)) out).
Proof.
  apply (raising_threshold_filters unhealthy 10 20). lia.
Defined.

Lemma amplification_propagates_witness :
  exists out,
    call (detect_retry_amplification 10) unhealthy = Some out /\
    In (retry_amplification_finding 36 ["gateway"; "svc-a"; "svc-b"]) out.
Proof.
  destruct (amplification_propagates unhealthy 10) as (out & Hcall & Hext).
  - intros n svc Hget. simpl in Hget.
    destruct (String.eqb n "gateway"); [inversion Hget; simpl; lia|].
    destruct (String.eqb n "svc-a"); [inversion Hget; simpl; lia|].
    destruct (String.eqb n "svc-b"); [inversion Hget; simpl; lia|discriminate].
  - exists out. split; [exact Hcall|].
    apply (Hext "gateway" ["gateway"; "svc-a"] ["svc-b"]).
    + split; [reflexivity|]. split; [|reflexivity].
      repeat constructor; simpl; intuition discriminate.
    + unfold call in Hcall. rewrite detect_retry_amplification_run in Hcall.
      injection Hcall as <-. vm_compute. left. reflexivity.
Defined.

Lemma timeout_inversion_one_way_witness :
  dict_wf unhealthy /\
  exists out,
    call (detect_timeout_inversion (fun _ => EmptyString)) unhealthy = Some out /\
    forall f a, In f out -> path f <> [a; a].
Proof.
  assert (Hwf : dict_wf unhealthy)
    by (repeat constructor; simpl; intuition discriminate).
  split; [exact Hwf|].
  destruct (timeout_inversion_one_way (fun _ => EmptyString) unhealthy Hwf)
    as (out & Hcall & _ & Hself).
  now exists out.
Defined.

(** ** Whitespace around a duration *)

Lemma lstrip_idempotent (s : Py.text) : Py.lstrip (Py.lstrip s) = Py.lstrip s.
Proof.
  induction s as [|c s IH]; simpl; [reflexivity|].
  destruct (Py.isspace c) eqn:Hc; [exact IH|].
  simpl. now rewrite Hc.
Qed.

Lemma lstrip_starts_clean (s : Py.text) : starts_clean (Py.lstrip s) = true.
Proof.
  induction s as [|c s IH]; simpl; [reflexivity|].
  destruct (Py.isspace c) eqn:Hc; [exact IH|].
  simpl. now rewrite Hc.
Qed.

Lemma lstrip_snoc_word (u : Py.text) (c : N) :
  Py.isspace c = false -> Py.lstrip (u ++ [c]) = Py.lstrip u ++ [c].
Proof.
  intros Hc. induction u as [|x u IH]; simpl.
  - now rewrite Hc.
  - destruct (Py.isspace x); [exact IH | reflexivity].
Qed.

Lemma lstrip_snoc_space (s : Py.text) (c : N) :
  Py.isspace c = true ->
  Py.lstrip (s ++ [c])
  = match Py.lstrip s with
    | [] => []
    | t => t ++ [c]
    end.
Proof.
  intros Hc. induction s as [|x s IH]; simpl.
  - now rewrite Hc.
  - destruct (Py.isspace x); [exact IH | reflexivity].
Qed.

Lemma rstrip_idempotent (s : Py.text) : Py.rstrip (Py.rstrip s) = Py.rstrip s.
Proof.
  unfold Py.rstrip. now rewrite rev_involutive, lstrip_idempotent.
Qed.

Lemma lstrip_rstrip_lstrip (s : Py.text) :
  Py.lstrip (Py.rstrip (Py.lstrip s)) = Py.rstrip (Py.lstrip s).
Proof.
  pose proof (lstrip_starts_clean s) as Hclean.
  destruct (Py.lstrip s) as [|c r]; [reflexivity|].
  simpl in Hclean. apply negb_true_iff in Hclean.
  unfold Py.rstrip. simpl rev. rewrite lstrip_snoc_word by assumption.
  rewrite rev_app_distr. simpl. now rewrite Hclean.
Qed.

Lemma strip_idempotent (s : Py.text) : Py.strip (Py.strip s) = Py.strip s.
Proof.
  unfold Py.strip. now rewrite lstrip_rstrip_lstrip, rstrip_idempotent.
Qed.

Lemma strip_space_left (c : N) (s : Py.text) :
  Py.isspace c = true -> Py.strip (c :: s) = Py.strip s.
Proof. intros Hc. unfold Py.strip. simpl. now rewrite Hc. Qed.

Lemma strip_space_right (s : Py.text) (c : N) :
  Py.isspace c = true -> Py.strip (s ++ [c]) = Py.strip s.
Proof.
  intros Hc. unfold Py.strip. rewrite lstrip_snoc_space by assumption.
  destruct (Py.lstrip s) as [|x r] eqn:E; [reflexivity|].
  apply rstrip_spaces. simpl. now rewrite Hc.
Qed.

(** X6: [parse_duration] does not see the whitespace around a string:
    stripping the argument beforehand, or putting a whitespace character
    (any of those [str.isspace] holds for, ASCII or not) in front of it or
    after it, changes nothing in the result, error included. *)
Theorem parse_duration_ignores_padding
    (float_of_str : Py.text -> option float) (s : Py.text) :
  parse_duration float_of_str (PyStr (Py.strip s))
  = parse_duration float_of_str (PyStr s) /\
  forall c, Py.isspace c = true ->
    parse_duration float_of_str (PyStr (c :: s))
    = parse_duration float_of_str (PyStr s) /\
    parse_duration float_of_str (PyStr (s ++ [c]))
    = parse_duration float_of_str (PyStr s).
Proof.
  split.
  - unfold parse_duration. now rewrite strip_idempotent.
  - intros c Hc. unfold parse_duration.
    now rewrite strip_space_left, strip_space_right.
Qed.

Lemma parse_duration_ignores_padding_witness :
  Py.isspace 32 = true /\ Py.isspace 160 = true /\
  parse_duration Py.float_of_digits (PyStr (32%N :: Py.chars "5s"))
  = Some 5000%float /\
  parse_duration Py.float_of_digits (PyStr (Py.chars "5s" ++ [160%N]))
  = Some 5000%float.
Proof.
  destruct (parse_duration_ignores_padding Py.float_of_digits (Py.chars "5s"))
    as [_ H].
  destruct (H 32%N eq_refl) as [Hl _].
  destruct (H 160%N eq_refl) as [_ Hr].
  split; [reflexivity|]. split; [reflexivity|]. split.
  - rewrite Hl. reflexivity.
  - rewrite Hr. reflexivity.
Defined.

(** ** The loader *)

Lemma text_eqb_spec (a b : Py.text) : reflect (a = b) (Py.text_eqb a b).
Proof.
  unfold Py.text_eqb. destruct (list_eq_dec N.eq_dec a b); now constructor.
Qed.

Lemma in_store {A : Type} (d : list (Py.text * A)) k v k' v' :
  In (k', v') (store d k v) -> (k' = k /\ v' = v) \/ In (k', v') d.
Proof.
  induction d as [|[k0 v0] d IH]; simpl.
  - intros [H|[]]. inversion H. now left.
  - destruct (text_eqb_spec k k0) as [->|Hne]; simpl.
    + intros [H|H]; [inversion H; now left | right; now right].
    + intros [H|H]; [right; now left|].
      destruct (IH H) as [?|?]; [now left | right; now right].
Qed.

Lemma keys_store {A : Type} (d : list (Py.text * A)) k v :
  (In k (map fst d) -> map fst (store d k v) = map fst d) /\
  (~ In k (map fst d) -> map fst (store d k v) = map fst d ++ [k]).
Proof.
  induction d as [|[k0 v0] d [IH1 IH2]]; simpl.
  - split; [intros [] | reflexivity].
  - destruct (text_eqb_spec k k0) as [->|Hne]; simpl.
    + split; [reflexivity | intros H; exfalso; apply H; now left].
    + split.
      * intros [H|H]; [congruence | now rewrite IH1].
      * intros H. rewrite IH2; [reflexivity | tauto].
Qed.

Lemma NoDup_store {A : Type} (d : list (Py.text * A)) k v :
  NoDup (map fst d) -> NoDup (map fst (store d k v)).
Proof.
  intros Hnd.
  destruct (in_dec (list_eq_dec N.eq_dec) k (map fst d)) as [Hin|Hnot].
  - now rewrite (proj1 (keys_store d k v) Hin).
  - rewrite (proj2 (keys_store d k v) Hnot). now apply NoDup_snoc.
Qed.

Lemma lookup_store {A : Type} (d : list (Py.text * A)) k v k' :
  lookup (store d k v) k' = if Py.text_eqb k' k then Some v else lookup d k'.
Proof.
  induction d as [|[k0 v0] d IH]; simpl.
  - reflexivity.
  - destruct (text_eqb_spec k k0) as [->|Hne]; simpl.
    + now destruct (Py.text_eqb k' k0).
    + destruct (text_eqb_spec k' k0) as [->|Hne'].
      * destruct (text_eqb_spec k0 k); [congruence | reflexivity].
      * exact IH.
Qed.

Lemma max_with_one_at_least (attempts retries : Yaml) :
  max_with_one attempts = Some retries -> at_least_one retries.
Proof.
  destruct attempts as [|b|n|x|s|items|entries]; simpl; intros H;
    inversion H; subst; clear H.
  - destruct b; simpl; [reflexivity | lia].
  - destruct (n <? 1) eqn:E; simpl; [lia | now apply Z.ltb_ge].
  - destruct (x <? 1)%float eqn:E; simpl; [lia | exact E].
Qed.

Lemma retries_at_least (v : Yaml) (n : Z) :
  at_least_one v -> retries_as_int v = Some n -> 1 <= n.
Proof.
  destruct v as [|b|m|x|s|items|entries]; simpl; intros H E; try discriminate.
  - subst b. inversion E. lia.
  - inversion E. subst. exact H.
Qed.

Lemma as_config_inv (c : LoadedConfig) (svc : ServiceConfig) :
  as_config c = Some svc ->
  name svc = name_of (loaded_name c) /\
  retries_as_int (loaded_max_retries c) = Some (max_retries svc).
Proof.
  unfold as_config.
  destruct (retries_as_int (loaded_max_retries c)) as [n|]; [|discriminate].
  destruct (loaded_calls c) as [| | | | |items|]; try discriminate.
  destruct (names_of items); simpl; [|discriminate].
  intros H. inversion H. subst. simpl. now split.
Qed.

Lemma as_topology_In (loaded : Loaded) :
  forall topology k svc,
    as_topology loaded = Some topology -> In (k, svc) topology ->
    exists k' c, In (k', c) loaded /\ k = name_of k' /\ as_config c = Some svc.
Proof.
  induction loaded as [|[k0 c0] rest IH]; simpl; intros topology k svc Hview Hin.
  - inversion Hview. subst. destruct Hin.
  - destruct (as_config c0) as [svc0|] eqn:Hc; [|discriminate].
    destruct (as_topology rest) as [t|]; [|discriminate].
    inversion Hview. subst. destruct Hin as [Heq|Hin].
    + inversion Heq. subst. exists k0, c0. repeat split; [now left | assumption].
    + destruct (IH t k svc eq_refl Hin) as (k' & c & Hin' & Hk & Hc').
      exists k', c. repeat split; [now right | assumption | assumption].
Qed.


Section LoaderFacts.

Variable float_of_str : Py.text -> option float.
Variable int_of_str : Py.text -> option Z.
Variable str_of : Yaml -> Py.text.

Lemma load_service_inv key cfg c :
  load_service float_of_str int_of_str str_of key cfg = Some c ->
  exists fields attempts timeout retries,
    cfg = YMap fields /\
    attempts_of int_of_str fields = Some attempts /\
    max_with_one attempts = Some retries /\
    timeout_of float_of_str str_of fields = Some timeout /\
    c = mkLoadedConfig key timeout retries
          (truth (get_or (lookup fields (Py.chars "circuit_breaker")) YNull))
          (get_or (lookup fields (Py.chars "calls")) (YList [])).
Proof.
  unfold load_service.
  destruct cfg as [| | | | | |fields]; try discriminate.
  destruct (attempts_of int_of_str fields) as [attempts|] eqn:Ha; [|discriminate].
  destruct (timeout_of float_of_str str_of fields) as [timeout|] eqn:Ht;
    [|discriminate].
  destruct (max_with_one attempts) as [retries|] eqn:Hmax; [|discriminate].
  intros H. inversion H. subst.
  exists fields, attempts, timeout, retries. now repeat split.
Qed.

Lemma load_service_shape key cfg c :
  load_service float_of_str int_of_str str_of key cfg = Some c ->
  loaded_name c = key /\ at_least_one (loaded_max_retries c).
Proof.
  intros H. apply load_service_inv in H.
  destruct H as (fields & attempts & timeout & retries & _ & _ & Hmax & _ & ->).
  simpl. split; [reflexivity | now apply (max_with_one_at_least attempts)].
Qed.



Lemma load_services_inv items :
  forall acc result,
    load_services float_of_str int_of_str str_of items acc = Some result ->
    NoDup (map fst acc) ->
    (forall k c, In (k, c) acc ->
       loaded_name c = k /\ at_least_one (loaded_max_retries c)) ->
    NoDup (map fst result) /\
    (forall k c, In (k, c) result ->
       loaded_name c = k /\ at_least_one (loaded_max_retries c)).
Proof.
  induction items as [|[key cfg] rest IH]; simpl; intros acc result Hload Hwf Hinv.
  - inversion Hload; subst. now split.
  - destruct (load_service float_of_str int_of_str str_of key cfg) as [c|] eqn:Hc;
      [|discriminate].
    apply (IH _ _ Hload).
    + now apply NoDup_store.
    + intros k v Hin. apply in_store in Hin.
      destruct Hin as [[-> ->]|Hin]; [|now apply Hinv].
      now apply (load_service_shape key cfg).
Qed.

Lemma load_services_keys items :
  forall acc result,
    load_services float_of_str int_of_str str_of items acc = Some result ->
    NoDup (map fst acc ++ map fst items) ->
    map fst result = map fst acc ++ map fst items.
Proof.
  induction items as [|[key cfg] rest IH]; simpl; intros acc result Hload Hnd.
  - inversion Hload; subst. now rewrite app_nil_r.
  - destruct (load_service float_of_str int_of_str str_of key cfg) as [c|];
      [|discriminate].
    assert (Hnot : ~ In key (map fst acc)).
    { intros Hin. apply NoDup_remove_2 in Hnd. apply Hnd. apply in_or_app.
      now left. }
    assert (Hkeys : map fst (store acc key c) = map fst acc ++ [key])
      by now apply keys_store.
    rewrite (IH _ _ Hload); rewrite Hkeys, <- app_assoc; [reflexivity | exact Hnd].
Qed.

Lemma load_services_get items :
  forall acc result key,
    load_services float_of_str int_of_str str_of items acc = Some result ->
    ~ In key (map fst items) ->
    lookup result key = lookup acc key.
Proof.
  induction items as [|[k cfg] rest IH]; simpl; intros acc result key Hload Hnot.
  - now inversion Hload.
  - destruct (load_service float_of_str int_of_str str_of k cfg) as [c|];
      [|discriminate].
    rewrite (IH _ _ key Hload) by tauto.
    rewrite lookup_store.
    destruct (text_eqb_spec key k); [subst; tauto | reflexivity].
Qed.

Lemma load_services_entry items :
  forall acc result key cfg,
    load_services float_of_str int_of_str str_of items acc = Some result ->
    NoDup (map fst items) -> In (key, cfg) items ->
    lookup result key = load_service float_of_str int_of_str str_of key cfg.
Proof.
  induction items as [|[k c] rest IH]; simpl; intros acc result key cfg Hload Hnd Hin;
    [destruct Hin|].
  inversion Hnd as [|? ? Hnot Hnd']; subst.
  destruct (load_service float_of_str int_of_str str_of k c) as [svc|] eqn:Hsvc;
    [|discriminate].
  destruct Hin as [Heq|Hin].
  - inversion Heq; subst.
    rewrite (load_services_get _ _ _ key Hload Hnot), lookup_store.
    now destruct (text_eqb_spec key key).
  - now apply (IH _ _ key cfg Hload).
Qed.

Lemma load_services_fails items :
  forall acc,
    load_services float_of_str int_of_str str_of items acc = None <->
    exists key cfg,
      In (key, cfg) items /\
      load_service float_of_str int_of_str str_of key cfg = None.
Proof.
  induction items as [|[k c] rest IH]; simpl; intros acc.
  - split; [discriminate | intros (? & ? & [] & _)].
  - destruct (load_service float_of_str int_of_str str_of k c) as [svc|] eqn:Hsvc.
    + rewrite IH. split.
      * intros (key & cfg & Hin & Hnone). exists key, cfg.
        split; [now right | assumption].
      * intros (key & cfg & [Heq|Hin] & Hnone).
        -- inversion Heq; subst. congruence.
        -- now exists key, cfg.
    + split; [|reflexivity]. intros _. exists k, c. split; [now left | assumption].
Qed.

Lemma load_topology_inv data loaded :
  load_topology float_of_str int_of_str str_of data = Some loaded ->
  exists entries items,
    data = YMap entries /\
    get_or (lookup entries (Py.chars "services")) (YMap []) = YMap items /\
    load_services float_of_str int_of_str str_of items [] = Some loaded.
Proof.
  unfold load_topology.
  destruct data as [| | | | | |entries]; try discriminate.
  destruct (get_or (lookup entries (Py.chars "services")) (YMap []))
    as [| | | | | |items] eqn:Hitems; try discriminate.
  intros H. now exists entries, items.
Qed.

Lemma loaded_shape data loaded :
  load_topology float_of_str int_of_str str_of data = Some loaded ->
  NoDup (map fst loaded) /\
  (forall k c, In (k, c) loaded ->
     loaded_name c = k /\ at_least_one (loaded_max_retries c)).
Proof.
  intros H. destruct (load_topology_inv _ _ H) as (entries & items & _ & _ & Hload).
  apply (load_services_inv _ _ _ Hload); [constructor | intros k c []].
Qed.

Lemma loaded_typed data loaded topology :
  load_topology float_of_str int_of_str str_of data = Some loaded ->
  as_topology loaded = Some topology ->
  forall k svc, In (k, svc) topology -> name svc = k /\ 1 <= max_retries svc.
Proof.
  intros Hload Hview k svc Hin.
  destruct (loaded_shape _ _ Hload) as [_ Hshape].
  destruct (as_topology_In _ _ _ _ Hview Hin) as (k' & c & Hin' & -> & Hc).
  destruct (Hshape _ _ Hin') as [Hname Hone].
  destruct (as_config_inv _ _ Hc) as [Hn Hr].
  split; [now rewrite Hn, Hname|].
  now apply (retries_at_least (loaded_max_retries c)).
Qed.

(** X7: what [load_topology] returns is a dict (each key once) in which every
    service carries its key as [name] and a [max_retries] that is not below
    1: an [int] that is at least 1, [True], or a [float] for which [1 > x] is
    false (nan included). Seen as a [Topology] (when the retry counts are
    integers and the [calls] lists of names), every [max_retries] is at least
    1. The document is a dict whose [services], if there, is a dict; when it
    names each service once, the services come in the order of the document,
    and each is a dict and is found under its name with its timeout parsed
    (the default is "30s"), its attempts (an [int] [n] gives [max n 1]), its
    breaker flag the truth value of the [circuit_breaker] entry, and its
    [calls] entry (the default is the empty list). *)
Theorem load_topology_normalises (data : Yaml) (loaded : Loaded) :
  load_topology float_of_str int_of_str str_of data = Some loaded ->
  NoDup (map fst loaded) /\
  (forall k c, In (k, c) loaded ->
     loaded_name c = k /\ at_least_one (loaded_max_retries c)) /\
  (forall topology, as_topology loaded = Some topology ->
     forall k svc, In (k, svc) topology -> name svc = k /\ 1 <= max_retries svc) /\
  (forall n, max_with_one (YInt n) = Some (YInt (Z.max n 1))) /\
  exists entries items,
    data = YMap entries /\
    get_or (lookup entries (Py.chars "services")) (YMap []) = YMap items /\
    (NoDup (map fst items) ->
     map fst loaded = map fst items /\
     forall key cfg, In (key, cfg) items ->
       exists fields attempts timeout retries,
         cfg = YMap fields /\
         attempts_of int_of_str fields = Some attempts /\
         max_with_one attempts = Some retries /\
         timeout_of float_of_str str_of fields = Some timeout /\
         lookup loaded key
         = Some (mkLoadedConfig key timeout retries
                   (truth (get_or (lookup fields (Py.chars "circuit_breaker"))
                                  YNull))
                   (get_or (lookup fields (Py.chars "calls")) (YList [])))).
Proof.
  intros Hload.
  destruct (loaded_shape _ _ Hload) as [Hnd Hshape].
  split; [assumption|]. split; [assumption|].
  split; [intros topology Hview; now apply (loaded_typed data loaded)|].
  split.
  { intros n. simpl. destruct (n <? 1) eqn:E; do 2 f_equal;
      [apply Z.ltb_lt in E | apply Z.ltb_ge in E]; lia. }
  destruct (load_topology_inv _ _ Hload) as (entries & items & Hdata & Hitems & Hs).
  exists entries, items. split; [assumption|]. split; [assumption|].
  intros Hnodup. split.
  - now apply (load_services_keys _ _ _ Hs).
  - intros key cfg Hin.
    pose proof (load_services_entry _ _ _ key cfg Hs Hnodup Hin) as Hget.
    destruct (load_service float_of_str int_of_str str_of key cfg) as [c|] eqn:Hc.
    + destruct (load_service_inv _ _ _ Hc)
        as (fields & attempts & timeout & retries & H1 & H2 & H3 & H4 & ->).
      exists fields, attempts, timeout, retries. now repeat split.
    + exfalso.
      assert (Hnone : load_services float_of_str int_of_str str_of items [] = None).
      { apply load_services_fails. now exists key, cfg. }
      congruence.
Qed.


End LoaderFacts.

Lemma load_topology_normalises_witness :
  load_topology Py.float_of_digits (fun _ => None) (fun _ => []) unhealthy_doc
  = Some unhealthy_loaded /\
  as_topology unhealthy_loaded = Some unhealthy /\
  NoDup (map fst unhealthy_loaded) /\
  map fst unhealthy_loaded
  = [Py.chars "gateway"; Py.chars "svc-a"; Py.chars "svc-b"] /\
  forall k svc, In (k, svc) unhealthy -> name svc = k /\ 1 <= max_retries svc.
Proof.
  assert (Hload : load_topology Py.float_of_digits (fun _ => None) (fun _ => [])
                    unhealthy_doc = Some unhealthy_loaded)
    by (vm_compute; reflexivity).
  assert (Hview : as_topology unhealthy_loaded = Some unhealthy)
    by (vm_compute; reflexivity).
  destruct (load_topology_normalises Py.float_of_digits (fun _ => None)
              (fun _ => []) unhealthy_doc unhealthy_loaded Hload)
    as (Hnd & _ & Htyped & _ & entries & items & Hdata & Hitems & Hkeys).
  split; [exact Hload|]. split; [exact Hview|]. split; [exact Hnd|].
  split; [reflexivity|]. exact (Htyped unhealthy Hview).
Defined.

(** A [max_attempts] that is nan is loaded as it is, [1 > nan] being false:
    the loaded dict is then no [Topology] of integer retry counts. *)
Example nan_attempts_loaded :
  load_topology Py.float_of_digits (fun _ => None) (fun _ => []) nan_attempts_doc
  = Some [ (Py.chars "a",
            mkLoadedConfig (Py.chars "a") 30000 (YFloat nan) false (YList [])) ] /\
  as_topology [ (Py.chars "a",
                 mkLoadedConfig (Py.chars "a") 30000 (YFloat nan) false (YList [])) ]
  = None.
Proof. split; vm_compute; reflexivity. Qed.

(** ** The command line *)

Lemma has_error_iff (findings : list Finding) :
  existsb (fun f => String.eqb (severity f) "error") findings = true <->
  exists f, In f findings /\ severity f = "error".
Proof.
  rewrite existsb_exists. split; intros [f [Hin H]]; exists f; split;
    try assumption; now apply String.eqb_eq.
Qed.

Lemma exit_status_lenient (findings : list Finding) :
  exit_status false findings = 1 <->
  exists f, In f findings /\ severity f = "error".
Proof.
  unfold exit_status. rewrite <- has_error_iff. simpl. rewrite orb_false_r.
  destruct (existsb _ findings); split; intros; try reflexivity; try lia;
    discriminate.
Qed.

Lemma exit_status_strict (findings : list Finding) :
  exit_status true findings = 0 <-> findings = [].
Proof.
  unfold exit_status. destruct findings as [|f l]; simpl.
  - split; reflexivity.
  - rewrite orb_true_r. split; intros; [lia | discriminate].
Qed.

Lemma exit_status_range (strict : bool) (findings : list Finding) :
  (exit_status strict findings = 0 \/ exit_status strict findings = 1) /\
  exit_status false findings <= exit_status strict findings.
Proof.
  unfold exit_status.
  destruct (existsb _ findings); destruct strict; destruct findings; simpl;
    split; auto; lia.
Qed.

Section CommandLineFacts.

Variable float_str : float -> string.

(** X9: the exit status [main] computes from what [analyze] finds on a
    topology (its last two lines, reached once the arguments are parsed and
    the topology is loaded). It is 0 or 1, and never lower with [--strict]
    than without; without [--strict] it is 1 exactly when some simple path
    of two or more services has a retry factor above the threshold (timeout
    inversions and circuit breaker gaps alone leave it at 0); with
    [--strict] it is 0 exactly when [analyze] finds nothing. *)
Theorem exit_status_of_analyze (topology : Topology) (threshold : Z) :
  exists findings,
    call (analyze float_str threshold) topology = Some findings /\
    (forall strict,
       (exit_status strict findings = 0 \/ exit_status strict findings = 1) /\
       exit_status false findings <= exit_status strict findings) /\
    (exit_status false findings = 1 <->
     exists start p,
       simple_path topology start p /\ (1 < List.length p)%nat /\
       threshold < chain_product topology p) /\
    (exit_status true findings = 0 <-> findings = []).
Proof.
  eexists. split; [unfold call; rewrite analyze_run; reflexivity|].
  simpl fst.
  split; [intros strict; apply exit_status_range|].
  split; [|apply exit_status_strict].
  rewrite exit_status_lenient. split.
  - intros [f [Hin Hsev]]. apply in_app_or in Hin. destruct Hin as [Hin|Hin].
    + apply in_retry_amplifications in Hin.
      destruct Hin as (start & p & Hp & Hlen & Hlt & _). now exists start, p.
    + exfalso. apply in_app_or in Hin. destruct Hin as [Hin|Hin].
      * apply in_timeout_inversions in Hin.
        destruct Hin as (? & ? & ? & ? & _ & _ & _ & _ & ->). discriminate.
      * apply in_circuit_breaker_gaps in Hin.
        destruct Hin as (? & ? & _ & ->). discriminate.
  - intros (start & p & Hp & Hlen & Hlt).
    exists (retry_amplification_finding (chain_product topology p) p).
    split; [|reflexivity]. apply in_or_app. left.
    apply in_retry_amplifications. now exists start, p.
Qed.

End CommandLineFacts.

(** ** The SARIF report *)

Lemma first_occurrences_In (l : list string) (x : string) :
  In x (first_occurrences l) <-> In x l.
Proof.
  induction l as [|y l IH]; simpl; [tauto|].
  rewrite filter_In, IH, negb_true_iff, String.eqb_neq.
  destruct (String.eqb_spec y x) as [->|Hne]; [tauto|].
  split; [tauto|]. intros [H|H]; [congruence|]. right. split; [assumption|].
  congruence.
Qed.

Lemma first_occurrences_NoDup (l : list string) : NoDup (first_occurrences l).
Proof.
  induction l as [|y l IH]; simpl; constructor.
  - rewrite filter_In, negb_true_iff, String.eqb_neq. tauto.
  - now apply NoDup_filter.
Qed.

Lemma filter_filter {A : Type} (f g : A -> bool) (l : list A) :
  filter f (filter g l) = filter (fun x => g x && f x) l.
Proof.
  induction l as [|x l IH]; simpl; [reflexivity|].
  destruct (g x); simpl; [destruct (f x); now rewrite IH | exact IH].
Qed.

Lemma sarif_see_step rules seen f :
  sarif_see (rules, seen) f
  = if negb (Py.contains seen (rule f))
    then (rules ++ [mkSarifRule (rule f)
                      (PyText.title (PyText.replace_char "-" " " (rule f)))],
          rule f :: seen)
    else (rules, seen).
Proof. reflexivity. Qed.

(** The first loop of [to_sarif], from rules with ids [map sarif_rule_id
    rules] and the set of those ids. *)
Lemma sarif_rules_loop (findings : list Finding) :
  forall rules seen,
    (forall x, Py.contains seen x = Py.contains (map sarif_rule_id rules) x) ->
    map sarif_rule_id (fst (fold_left sarif_see findings (rules, seen)))
    = map sarif_rule_id rules
      ++ filter (fun x => negb (Py.contains (map sarif_rule_id rules) x))
           (first_occurrences (map rule findings)) /\
    (Forall (fun r => sarif_short_description r
                      = PyText.title (PyText.replace_char "-" " " (sarif_rule_id r)))
            rules ->
     Forall (fun r => sarif_short_description r
                      = PyText.title (PyText.replace_char "-" " " (sarif_rule_id r)))
            (fst (fold_left sarif_see findings (rules, seen)))).
Proof.
  induction findings as [|f l IH]; intros rules seen Hseen.
  - simpl. now rewrite app_nil_r.
  - change (fold_left sarif_see (f :: l) (rules, seen))
      with (fold_left sarif_see l (sarif_see (rules, seen) f)).
    rewrite sarif_see_step, Hseen.
    destruct (Py.contains (map sarif_rule_id rules) (rule f)) eqn:Hc; simpl negb;
      cbv iota.
    + destruct (IH rules seen Hseen) as [IHa IHb]. split; [|exact IHb].
      rewrite IHa. f_equal. simpl. rewrite Hc. simpl.
      rewrite filter_filter. apply filter_ext_in. intros x _.
      destruct (String.eqb_spec x (rule f)) as [->|Hne]; simpl;
        [now rewrite Hc | reflexivity].
    + set (r := mkSarifRule (rule f)
                  (PyText.title (PyText.replace_char "-" " " (rule f)))).
      assert (Hseen' : forall x, Py.contains (rule f :: seen) x
                                 = Py.contains (map sarif_rule_id (rules ++ [r])) x).
      { intros x. rewrite map_app. unfold Py.contains in *.
        rewrite existsb_app. simpl. rewrite Hseen, orb_false_r.
        apply orb_comm. }
      destruct (IH (rules ++ [r]) (rule f :: seen) Hseen') as [IHa IHb].
      split.
      * rewrite IHa, map_app, <- app_assoc. f_equal. simpl. rewrite Hc. simpl.
        f_equal. rewrite filter_filter. apply filter_ext_in. intros x _.
        unfold Py.contains. rewrite existsb_app. simpl. rewrite orb_false_r.
        rewrite negb_orb, andb_comm. reflexivity.
      * intros Hall. apply IHb. apply Forall_app. split; [assumption|].
        constructor; [reflexivity | constructor].
Qed.

Lemma filter_all {A : Type} (f : A -> bool) (l : list A) :
  (forall x, In x l -> f x = true) -> filter f l = l.
Proof.
  induction l as [|x l IH]; simpl; intros H; [reflexivity|].
  rewrite (H x) by now left. f_equal. apply IH. intros y Hy. apply H. now right.
Qed.

Lemma to_sarif_rules (findings : list Finding) :
  map sarif_rule_id (sarif_rules (to_sarif findings))
  = first_occurrences (map rule findings) /\
  Forall (fun r => sarif_short_description r
                   = PyText.title (PyText.replace_char "-" " " (sarif_rule_id r)))
         (sarif_rules (to_sarif findings)) /\
  sarif_results (to_sarif findings) = map sarif_result findings.
Proof.
  unfold to_sarif.
  destruct (sarif_rules_loop findings [] [] (fun x => eq_refl)) as [Ha Hb].
  destruct (fold_left sarif_see findings ([], [])) as [rules seen]. simpl in *.
  split; [|split; [now apply Hb | reflexivity]].
  rewrite Ha. apply filter_all. reflexivity.
Qed.

(** X10: the rules of a SARIF report are the rules of the findings, each
    once, in the order of their first occurrence; a rule whose id is ASCII is
    described by its id with dashes turned into spaces and in title case;
    the results are as many as the findings, in their order, each with the
    finding's rule and message, and each names a rule the report declares. *)
Theorem to_sarif_rules_and_results (findings : list Finding) :
  let report := to_sarif findings in
  map sarif_rule_id (sarif_rules report)
  = first_occurrences (map rule findings) /\
  NoDup (map sarif_rule_id (sarif_rules report)) /\
  (forall x, In x (map sarif_rule_id (sarif_rules report)) <->
             In x (map rule findings)) /\
  (forall r, In r (sarif_rules report) ->
     is_ascii (sarif_rule_id r) = true ->
     sarif_short_description r
     = PyText.title (PyText.replace_char "-" " " (sarif_rule_id r))) /\
  List.length (sarif_results report) = List.length findings /\
  map result_rule_id (sarif_results report) = map rule findings /\
  map result_message (sarif_results report) = map message findings /\
  (forall res, In res (sarif_results report) ->
     exists r, In r (sarif_rules report) /\
               sarif_rule_id r = result_rule_id res).
Proof.
  intros report. subst report.
  destruct (to_sarif_rules findings) as (Hids & Hdesc & Hres).
  rewrite Hids, Hres.
  split; [reflexivity|].
  split; [apply first_occurrences_NoDup|].
  split; [intros x; apply first_occurrences_In|].
  split; [intros r Hr _; revert r Hr; now apply Forall_forall|].
  split; [apply length_map|].
  split; [rewrite map_map; reflexivity|].
  split; [rewrite map_map; reflexivity|].
  intros res Hin. apply in_map_iff in Hin. destruct Hin as [f [<- Hf]].
  assert (Hr : In (rule f) (map sarif_rule_id (sarif_rules (to_sarif findings)))).
  { rewrite Hids. apply first_occurrences_In. now apply in_map. }
  apply in_map_iff in Hr. destruct Hr as [r [Heq Hr]]. now exists r.
Qed.

Section SarifFacts.

Variable float_str : float -> string.

(** X11: the SARIF report of what [analyze] finds keeps rule, severity (as
    level) and message of every finding, in order, and drops only the path;
    it declares at most three rules, each one of retry-amplification
    ("Retry Amplification"), timeout-inversion ("Timeout Inversion") and
    circuit-breaker-gap ("Circuit Breaker Gap"). *)
Theorem to_sarif_of_analyze (services : Topology) (threshold : Z) :
  exists findings,
    call (analyze float_str threshold) services = Some findings /\
    map (fun res => (result_rule_id res, result_level res, result_message res))
        (sarif_results (to_sarif findings))
    = map (fun f => (rule f, severity f, message f)) findings /\
    (List.length (sarif_rules (to_sarif findings)) <= 3)%nat /\
    forall r, In r (sarif_rules (to_sarif findings)) ->
      r = mkSarifRule "retry-amplification" "Retry Amplification" \/
      r = mkSarifRule "timeout-inversion" "Timeout Inversion" \/
      r = mkSarifRule "circuit-breaker-gap" "Circuit Breaker Gap".
Proof.
  eexists. split; [unfold call; rewrite analyze_run; reflexivity|].
  set (findings := retry_amplifications services threshold
                     ++ timeout_inversions float_str services
                     ++ circuit_breaker_gaps services).
  simpl fst. fold findings.
  assert (Hshape : forall f, In f findings ->
            (rule f = "retry-amplification" /\ severity f = "error") \/
            (rule f = "timeout-inversion" /\ severity f = "warning") \/
            (rule f = "circuit-breaker-gap" /\ severity f = "warning")).
  { intros f Hf. unfold findings in Hf.
    apply in_app_or in Hf. destruct Hf as [Hf|Hf].
    - left. apply in_retry_amplifications in Hf.
      destruct Hf as (? & ? & _ & _ & _ & ->). now split.
    - apply in_app_or in Hf. destruct Hf as [Hf|Hf].
      + right; left. apply in_timeout_inversions in Hf.
        destruct Hf as (? & ? & ? & ? & _ & _ & _ & _ & ->). now split.
      + right; right. apply in_circuit_breaker_gaps in Hf.
        destruct Hf as (? & ? & _ & ->). now split. }
  destruct (to_sarif_rules findings) as (Hids & Hdesc & Hres).
  assert (Hrules : forall r, In r (sarif_rules (to_sarif findings)) ->
            r = mkSarifRule "retry-amplification" "Retry Amplification" \/
            r = mkSarifRule "timeout-inversion" "Timeout Inversion" \/
            r = mkSarifRule "circuit-breaker-gap" "Circuit Breaker Gap").
  { intros r Hr.
    assert (Hid : In (sarif_rule_id r) (map rule findings)).
    { apply first_occurrences_In. rewrite <- Hids. now apply in_map. }
    apply in_map_iff in Hid. destruct Hid as [f [Hrule Hf]].
    pose proof (proj1 (Forall_forall _ _) Hdesc r Hr) as Hd.
    destruct r as [id desc]. simpl in *. subst id.
    destruct (Hshape f Hf) as [[E _]|[[E _]|[E _]]]; rewrite E in *; subst desc;
      [left | right; left | right; right]; reflexivity. }
  split; [|split; [|exact Hrules]].
  - rewrite Hres, map_map. apply map_ext_in. intros f Hf. unfold sarif_result.
    simpl. destruct (Hshape f Hf) as [[_ E]|[[_ E]|[_ E]]]; now rewrite E.
  - assert (Hnd : NoDup (map sarif_rule_id (sarif_rules (to_sarif findings))))
      by (rewrite Hids; apply first_occurrences_NoDup).
    assert (Hincl : incl (map sarif_rule_id (sarif_rules (to_sarif findings)))
                         ["retry-amplification"; "timeout-inversion";
                          "circuit-breaker-gap"]).
    { intros x Hx. apply in_map_iff in Hx. destruct Hx as [r [<- Hr]].
      destruct (Hrules r Hr) as [E|[E|E]]; rewrite E; simpl; tauto. }
    pose proof (NoDup_incl_length Hnd Hincl) as Hlen.
    now rewrite length_map in Hlen.
Qed.

End SarifFacts.

(** ** Order and size of the findings *)

Lemma flat_map_concat {A B : Type} (f : A -> list B) (l : list A) :
  flat_map f l = List.concat (map f l).
Proof. induction l as [|x l IH]; simpl; [reflexivity | now rewrite IH]. Qed.

Lemma Forall2_map_right {A B : Type} (R : A -> B -> Prop) (f : A -> B) (l : list A) :
  (forall x, In x l -> R x (f x)) -> Forall2 R l (map f l).
Proof.
  induction l as [|x l IH]; simpl; intros H; constructor.
  - apply H. now left.
  - apply IH. intros y Hy. apply H. now right.
Qed.

Lemma Forall2_map_both {A B C : Type} (R : B -> C -> Prop)
    (g : A -> B) (f : A -> C) (l : list A) :
  (forall x, In x l -> R (g x) (f x)) -> Forall2 R (map g l) (map f l).
Proof.
  induction l as [|x l IH]; simpl; intros H; constructor.
  - apply H. now left.
  - apply IH. intros y Hy. apply H. now right.
Qed.

Lemma length_flat_map_le {A B : Type} (f : A -> list B) (g : A -> nat) (l : list A) :
  (forall x, In x l -> (List.length (f x) <= g x)%nat) ->
  (List.length (flat_map f l) <= list_sum (map g l))%nat.
Proof.
  induction l as [|x l IH]; simpl; intros H; [lia|].
  rewrite length_app.
  assert (List.length (f x) <= g x)%nat by (apply H; now left).
  assert (List.length (flat_map f l) <= list_sum (map g l))%nat
    by (apply IH; intros y Hy; apply H; now right).
  lia.
Qed.

Section OrderAndSize.

Variable float_str : float -> string.

(** X12: the findings of [detect_retry_amplification] and of
    [detect_timeout_inversion] come grouped by the service their path starts
    at, one group (possibly empty) per key of the dict, in the order of the
    dict. *)
Theorem findings_grouped_by_start (services : Topology) (threshold : Z) :
  exists amplification inversions,
    call (detect_retry_amplification threshold) services
    = Some (List.concat amplification) /\
    call (detect_timeout_inversion float_str) services
    = Some (List.concat inversions) /\
    Forall2 (fun start group =>
               forall f, In f group -> hd_error (path f) = Some start)
            (dict_keys services) amplification /\
    Forall2 (fun start group =>
               forall f, In f group -> hd_error (path f) = Some start)
            (dict_keys services) inversions.
Proof.
  exists (map (fun start => flat_map (flag_path services threshold)
                              (explored services threshold start))
              (dict_keys services)),
         (map (fun '(caller, svc) =>
                 flat_map (fun callee_name =>
                   match dict_get services callee_name with
                   | Some callee =>
                       if (timeout_ms svc <? timeout_ms callee)%float
                       then [timeout_inversion_finding float_str caller svc
                               callee_name callee]
                       else []
                   | None => []
                   end) (calls svc))
              services).
  unfold call. rewrite detect_retry_amplification_run,
    detect_timeout_inversion_run. simpl.
  split; [|split; [|split]].
  - unfold retry_amplifications, all_explored.
    now rewrite flat_map_flat_map, flat_map_concat.
  - unfold timeout_inversions. now rewrite flat_map_concat.
  - apply Forall2_map_right. intros start _ f Hf.
    apply in_flat_map in Hf. destruct Hf as [p [Hp Hf]].
    apply (proj1 (proj2 (walk_from_start services threshold start))) in Hp.
    apply in_flag in Hf. subst f. simpl. apply Hp.
  - unfold dict_keys. apply Forall2_map_both. intros [caller svc] _ f Hf.
    apply in_flat_map in Hf. destruct Hf as [callee_name [_ Hf]].
    destruct (dict_get services callee_name) as [callee|]; [|destruct Hf].
    destruct (timeout_ms svc <? timeout_ms callee)%float; [|destruct Hf].
    destruct Hf as [<-|[]]. reflexivity.
Qed.

(** X13: [detect_timeout_inversion] returns at most one finding per entry of
    a [calls] list, and [detect_circuit_breaker_gaps] at most one per
    service. *)
Theorem warnings_bounded (services : Topology) :
  exists inversions gaps,
    call (detect_timeout_inversion float_str) services = Some inversions /\
    call detect_circuit_breaker_gaps services = Some gaps /\
    (List.length inversions
     <= list_sum (map (fun '(_, svc) => List.length (calls svc)) services))%nat /\
    (List.length gaps <= List.length services)%nat.
Proof.
  exists (timeout_inversions float_str services), (circuit_breaker_gaps services).
  unfold call. rewrite detect_timeout_inversion_run,
    detect_circuit_breaker_gaps_run. simpl.
  split; [reflexivity|]. split; [reflexivity|]. split.
  - unfold timeout_inversions. apply length_flat_map_le.
    intros [caller svc] _.
    replace (List.length (calls svc))
      with (list_sum (map (fun _ : string => 1%nat) (calls svc))).
    + apply length_flat_map_le. intros callee_name _.
      destruct (dict_get services callee_name) as [callee|]; simpl; [|lia].
      destruct (timeout_ms svc <? timeout_ms callee)%float; simpl; lia.
    + induction (calls svc) as [|c cs IH]; simpl; [reflexivity | now rewrite IH].
  - unfold circuit_breaker_gaps.
    replace (List.length services)
      with (list_sum (map (fun _ : string * ServiceConfig => 1%nat) services)).
    + apply length_flat_map_le. intros [name svc] _.
      destruct (truthy (calls svc) && negb (has_circuit_breaker svc)); simpl; lia.
    + induction services as [|x l IH]; simpl; [reflexivity | now rewrite IH].
Qed.

End OrderAndSize.

(** ** From the document to the findings *)

Section Pipeline.

Variable float_of_str : Py.text -> option float.
Variable int_of_str : Py.text -> option Z.
Variable str_of : Yaml -> Py.text.

(** X14: in a loaded dict that is a [Topology] (its retry counts are integers
    and its [calls] lists of names) every retry factor is at least 1 and
    grows along a path, whatever integers the document gives as retry counts,
    zero and negative ones included. So a threshold below 1 flags every
    simple path of two or more services, and the finding of a path brings
    with it the finding of every simple path that extends it. *)
Theorem loaded_factors_grow (data : Yaml) (loaded : Loaded)
    (topology : Topology) (threshold : Z) :
  load_topology float_of_str int_of_str str_of data = Some loaded ->
  as_topology loaded = Some topology ->
  exists out,
    call (detect_retry_amplification threshold) topology = Some out /\
    (forall p ext,
       1 <= chain_product topology p <= chain_product topology (p ++ ext)) /\
    (threshold < 1 ->
     forall start p, simple_path topology start p -> (1 < List.length p)%nat ->
       In (retry_amplification_finding (chain_product topology p) p) out) /\
    (forall start p ext,
       simple_path topology start (p ++ ext) ->
       In (retry_amplification_finding (chain_product topology p) p) out ->
       In (retry_amplification_finding (chain_product topology (p ++ ext))
             (p ++ ext)) out).
Proof.
  intros Hload Hview.
  assert (Hpos : forall n svc, dict_get topology n = Some svc ->
                               1 <= max_retries svc).
  { intros n svc Hget. apply dict_get_In in Hget.
    now apply (loaded_typed float_of_str int_of_str str_of data loaded topology
                 Hload Hview n). }
  exists (retry_amplifications topology threshold).
  unfold call. rewrite detect_retry_amplification_run. simpl.
  split; [reflexivity|]. split; [|split].
  - intros p ext. now apply chain_product_extend.
  - intros Hlow start p Hp Hlen. apply in_retry_amplifications.
    exists start, p. repeat split; try apply Hp; try assumption.
    destruct (chain_product_extend topology p [] Hpos). lia.
  - intros start p ext Hsimple Hin.
    destruct (chain_product_extend topology p ext Hpos) as [_ Hle].
    apply in_retry_amplifications in Hin.
    destruct Hin as (start' & p' & _ & Hlen & Hlt & Heq).
    assert (p' = p) by (apply (f_equal path) in Heq; simpl in Heq; congruence).
    subst p'. apply in_retry_amplifications.
    exists start, (p ++ ext). repeat split; try apply Hsimple.
    + rewrite length_app. lia.
    + lia.
Qed.

End Pipeline.

Lemma loaded_factors_grow_witness :
  exists out,
    call (detect_retry_amplification 0) unhealthy = Some out /\
    In (retry_amplification_finding 12 ["gateway"; "svc-a"]) out.
Proof.
  assert (Hload : load_topology Py.float_of_digits (fun _ => None) (fun _ => [])
                    unhealthy_doc = Some unhealthy_loaded)
    by (vm_compute; reflexivity).
  assert (Hview : as_topology unhealthy_loaded = Some unhealthy)
    by (vm_compute; reflexivity).
  destruct (loaded_factors_grow Py.float_of_digits (fun _ => None) (fun _ => [])
              unhealthy_doc unhealthy_loaded unhealthy 0 Hload Hview)
    as (out & Hcall & _ & Hlow & _).
  exists out. split; [exact Hcall|].
  apply (Hlow ltac:(lia) "gateway" ["gateway"; "svc-a"]).
  - split; [reflexivity|]. split; [|reflexivity].
    repeat constructor; simpl; intuition discriminate.
  - simpl. lia.
Defined.

(** ** How often a path is visited *)

Lemma count_occ_absent {A : Type} (dec : forall x y : A, {x = y} + {x <> y})
    (l : list A) (x : A) :
  ~ In x l -> count_occ dec l x = 0%nat.
Proof. apply count_occ_not_In. Qed.

(** A path below [path] is visited once per way of choosing its edges. *)
Lemma walks_count s threshold :
  (forall name path product out ps,
     walks s threshold name path product out ps ->
     forall pre, path = pre ++ [name] -> NoDup path ->
       (forall svc, dict_get s name = Some svc -> is_call_chain s path = true) ->
       product = chain_product s pre ->
     forall ext, NoDup (path ++ ext) -> is_call_chain s (path ++ ext) = true ->
       count_occ (list_eq_dec string_dec) ps (path ++ ext)
       = edge_multiplicity s (name :: ext)) /\
  (forall callees path current out ps,
     walks_calls s threshold callees path current out ps ->
     forall pre name svc, path = pre ++ [name] -> dict_get s name = Some svc ->
       incl callees (calls svc) -> NoDup path -> is_call_chain s path = true ->
       current = chain_product s path ->
     forall m ext, NoDup (path ++ m :: ext) ->
       is_call_chain s (path ++ m :: ext) = true ->
       count_occ (list_eq_dec string_dec) ps (path ++ m :: ext)
       = (count_occ string_dec callees m * edge_multiplicity s (m :: ext))%nat).
Proof.
  apply walks_mutind.
  - intros name path product Hget pre -> _ _ _ ext _ Hchain.
    rewrite <- app_assoc in Hchain. simpl in Hchain.
    apply is_call_chain_last in Hchain. destruct Hchain as [svc Hsvc]. congruence.
  - intros name path product svc out ps Hget Hw IH pre Hpath Hnd Hchain Hprod
      ext Hnd' Hchain'.
    assert (Hcur : product * max_retries svc = chain_product s path).
    { subst path product. rewrite chain_product_snoc. unfold retries_of.
      now rewrite Hget. }
    destruct (proj2 (walks_sound s threshold) _ _ _ _ _ Hw pre name svc
                Hpath Hget (incl_refl _) Hnd (Hchain svc Hget) Hcur) as [Hp _].
    destruct ext as [|m ext].
    + rewrite app_nil_r. rewrite count_occ_cons_eq by reflexivity.
      rewrite count_occ_absent; [reflexivity|].
      intros Hin. destruct (Hp path Hin) as (_ & _ & m & ext & _ & Heq).
      apply (f_equal (@List.length string)) in Heq.
      rewrite length_app in Heq. simpl in Heq. lia.
    + rewrite count_occ_cons_neq.
      * rewrite (IH pre name svc Hpath Hget (incl_refl _) Hnd (Hchain svc Hget)
                   Hcur m ext Hnd' Hchain').
        simpl. now rewrite Hget.
      * intros Heq. apply (f_equal (@List.length string)) in Heq.
        rewrite length_app in Heq. simpl in Heq. lia.
  - intros. reflexivity.
  - intros callee rest path current out ps Hc _ IH pre name svc
      Hpath Hget Hincl Hnd Hchain Hcur m ext Hnd' Hchain'.
    assert (Hne : callee <> m).
    { intros ->. apply contains_In in Hc.
      apply NoDup_remove_2 in Hnd'. apply Hnd'. apply in_or_app. now left. }
    rewrite count_occ_cons_neq by assumption.
    apply (IH pre name svc); try assumption.
    intros x Hx. apply Hincl. now right.
  - intros callee rest path current o1 p1 o2 p2 Hc Hw1 IH1 Hw2 IH2 pre name svc
      Hpath Hget Hincl Hnd Hchain Hcur m ext Hnd' Hchain'.
    apply contains_not_In in Hc.
    assert (Hndc : NoDup (path ++ [callee])) by now apply NoDup_snoc.
    assert (Hchainc : forall svc', dict_get s callee = Some svc' ->
                                   is_call_chain s (path ++ [callee]) = true).
    { intros svc' Hget'. subst path.
      apply (is_call_chain_snoc s pre name svc callee svc'); try assumption.
      apply Hincl. now left. }
    assert (Hincl' : incl rest (calls svc)).
    { intros x Hx. apply Hincl. now right. }
    rewrite count_occ_app.
    rewrite (IH2 pre name svc Hpath Hget Hincl' Hnd Hchain Hcur m ext Hnd' Hchain').
    destruct (string_dec callee m) as [->|Hne].
    + rewrite count_occ_cons_eq by reflexivity.
      replace (path ++ m :: ext) with ((path ++ [m]) ++ ext)
        by now rewrite <- app_assoc.
      rewrite (IH1 path eq_refl Hndc Hchainc Hcur ext);
        [lia | rewrite <- app_assoc; assumption
             | rewrite <- app_assoc; assumption].
    + rewrite count_occ_cons_neq by assumption.
      rewrite count_occ_absent; [reflexivity|].
      intros Hin.
      destruct (proj1 (walks_sound s threshold) _ _ _ _ _ Hw1 path eq_refl
                  Hndc Hchainc Hcur) as [Hs1 _].
      destruct (Hs1 _ Hin) as (_ & _ & ext1 & E1).
      rewrite <- app_assoc in E1. apply app_inv_head in E1. simpl in E1.
      inversion E1. congruence.
Qed.

Lemma findings_for_flagged s threshold (p : list string) (ps : list (list string)) :
  List.length (findings_for p (flat_map (flag_path s threshold) ps))
  = if (1 <? List.length p)%nat && (threshold <? chain_product s p)
    then count_occ (list_eq_dec string_dec) ps p else 0%nat.
Proof.
  unfold findings_for. induction ps as [|q ps IH]; simpl.
  - now destruct (_ && _).
  - rewrite filter_app, length_app, IH. unfold flag_path at 1, flag.
    destruct (list_eq_dec string_dec q p) as [->|Hne].
    + destruct ((1 <? List.length p)%nat && (threshold <? chain_product s p));
        simpl; [|reflexivity].
      now destruct (list_eq_dec string_dec p p).
    + destruct ((1 <? List.length q)%nat && (threshold <? chain_product s q));
        simpl.
      * destruct (list_eq_dec string_dec q p); [contradiction|]. simpl.
        now destruct (_ && _).
      * now destruct (_ && _).
Qed.

(** X15: from a start node the traversal visits a simple path once for each
    way of choosing its edges among the [calls] entries: as many times as the
    product, over the edges of the path, of the number of times the caller's
    [calls] list names the callee. It appends the finding of the path as many
    times when the path has two or more services and a retry factor above the
    threshold, and never otherwise. *)
Theorem explored_as_often_as_listed (services : Topology) (threshold : Z)
    (start : string) (p : list string) :
  simple_path services start p ->
  exists h1,
    walk (S (List.length (dict_keys services))) threshold start [start] 1
         (new_heap services) = Some (tt, h1) /\
    count_occ (list_eq_dec string_dec) (heap_visited h1) p
    = edge_multiplicity services p /\
    List.length (findings_for p (heap_findings h1))
    = if (1 <? List.length p)%nat && (threshold <? chain_product services p)
      then edge_multiplicity services p else 0%nat.
Proof.
  intros (Hchain & Hnd & Hhd).
  destruct p as [|x ext]; [discriminate|]. simpl in Hhd. injection Hhd as ->.
  destruct (walk_runs services threshold _ start [start] 1
              (fuel_needed_start services start)) as (out & ps & Hw & Hr).
  assert (Hnd1 : NoDup [start]) by (repeat constructor; easy).
  assert (Hchain1 : forall svc, dict_get services start = Some svc ->
                                is_call_chain services [start] = true).
  { intros svc Hget. simpl. now rewrite Hget. }
  assert (Hcount : count_occ (list_eq_dec string_dec) ps (start :: ext)
                   = edge_multiplicity services (start :: ext)).
  { apply (proj1 (walks_count services threshold) _ _ _ _ _ Hw [] eq_refl Hnd1
             Hchain1 eq_refl ext); assumption. }
  destruct (proj1 (walks_sound services threshold) _ _ _ _ _ Hw [] eq_refl Hnd1
              Hchain1 eq_refl) as [_ Hout].
  eexists. split; [apply (Hr (new_heap services) eq_refl)|]. simpl.
  split; [exact Hcount|].
  rewrite Hout, findings_for_flagged, Hcount. reflexivity.
Qed.

Lemma explored_as_often_as_listed_witness :
  simple_path twice_twice "a" ["a"; "b"; "c"] /\
  exists h1,
    walk 4 default_threshold "a" ["a"] 1 (new_heap twice_twice) = Some (tt, h1) /\
    count_occ (list_eq_dec string_dec) (heap_visited h1) ["a"; "b"; "c"] = 4%nat /\
    List.length (findings_for ["a"; "b"; "c"] (heap_findings h1)) = 4%nat.
Proof.
  assert (Hp : simple_path twice_twice "a" ["a"; "b"; "c"]).
  { split; [reflexivity|]. split; [|reflexivity].
    repeat constructor; simpl; intuition discriminate. }
  split; [exact Hp|].
  destruct (explored_as_often_as_listed twice_twice default_threshold "a"
              ["a"; "b"; "c"] Hp) as (h1 & Hrun & Hcount & Hfound).
  exists h1. split; [exact Hrun|]. split; [exact Hcount | exact Hfound].
Defined.
